(** * X3DomHelper: a shallow embedding of [src/X3DomHelper.js]

    The helper is a thin facade over the x3dom engine, the DOM and the
    browser's timers.  The embedding keeps the helper's own code as
    executable definitions and gives what it calls into explicit models:

    - JavaScript numbers ([JsNum]): finite values are exact rationals,
      extended with [NaN] and the two infinities;
    - strings ([JsString]): sequences of code units below 256;
    - the DOM shape element ([Shapes]): a property store;
    - the inline loader of the constructor ([Loader]): listeners, a shared
      counter and a promise;
    - the engine and the timers ([Camera]): an abstract engine, a log of the
      calls made into it, and a queue of pending timers;
    - element attributes and the background element ([Dom]);
    - the reactions that [addInlineListener] hangs on the promise
      ([Inline]), over an abstract document. *)

From Stdlib Require Import List String Ascii Bool Arith ZArith Lia.
From Stdlib Require Import QArith Qabs Qcanon Qcabs.
From Stdlib Require Import DecimalString.
From Stdlib Require Import Permutation.
Import ListNotations.

Close Scope Qc_scope.
Close Scope Q_scope.

Set Implicit Arguments.

(** ** Results of calls that may throw *)

Inductive JsError : Type :=
| RangeError (msg : string)
| TypeError (msg : string).

Inductive Result (A : Type) : Type :=
| Ok (a : A)
| Throw (e : JsError).

Arguments Ok {A} a.
Arguments Throw {A} e.

Definition default {A : Type} (d : A) (o : option A) : A :=
  match o with
  | Some v => v
  | None => d
  end.

(** ** JavaScript numbers *)

Module JsNum.

Local Open Scope Qc_scope.

(** A number is [NaN], an infinity or a finite value.  Finite doubles are
    embedded in the rationals and arithmetic on them is exact: rounding,
    overflow and the sign of zero are left out. *)
Inductive jsnum : Type :=
| NaN
| PInf
| NInf
| Fin (q : Qc).

Definition of_Z (z : Z) : jsnum := Fin (Q2Qc (inject_Z z)).

Definition zero : jsnum := of_Z 0.
Definition one : jsnum := of_Z 1.

(** Sign of a finite value: [Lt] negative, [Eq] zero, [Gt] positive. *)
Definition sgn (q : Qc) : comparison := q ?= 0.

Definition jneg (x : jsnum) : jsnum :=
  match x with
  | NaN => NaN
  | PInf => NInf
  | NInf => PInf
  | Fin q => Fin (- q)
  end.

(** [Math.abs] *)
Definition jabs (x : jsnum) : jsnum :=
  match x with
  | NaN => NaN
  | PInf | NInf => PInf
  | Fin q => Fin (Qcabs q)
  end.

(** An infinity times a finite value. *)
Definition inf_times (inf : jsnum) (q : Qc) : jsnum :=
  match sgn q with
  | Eq => NaN
  | Gt => inf
  | Lt => jneg inf
  end.

(** [x * y] *)
Definition jmul (x y : jsnum) : jsnum :=
  match x, y with
  | NaN, _ | _, NaN => NaN
  | Fin a, Fin b => Fin (a * b)
  | Fin a, (PInf | NInf) => inf_times y a
  | (PInf | NInf), Fin b => inf_times x b
  | PInf, PInf | NInf, NInf => PInf
  | PInf, NInf | NInf, PInf => NInf
  end.

(** [x / y]; a finite value divided by zero is an infinity (or [NaN] for
    0/0), never an exception. *)
Definition jdiv (x y : jsnum) : jsnum :=
  match x, y with
  | NaN, _ | _, NaN => NaN
  | (PInf | NInf), (PInf | NInf) => NaN
  | PInf, Fin b => match sgn b with Lt => NInf | _ => PInf end
  | NInf, Fin b => match sgn b with Lt => PInf | _ => NInf end
  | Fin _, (PInf | NInf) => zero
  | Fin a, Fin b =>
      match sgn b with
      | Eq => match sgn a with
              | Eq => NaN
              | Gt => PInf
              | Lt => NInf
              end
      | _ => Fin (a / b)
      end
  end.

(** [x > y] *)
Definition jgt (x y : jsnum) : bool :=
  match x, y with
  | NaN, _ | _, NaN => false
  | PInf, PInf => false
  | PInf, _ => true
  | _, PInf => false
  | NInf, _ => false
  | Fin _, NInf => true
  | Fin a, Fin b => match a ?= b with Gt => true | _ => false end
  end.

(** [x <= y] *)
Definition jle (x y : jsnum) : bool :=
  match x, y with
  | NaN, _ | _, NaN => false
  | _, PInf => true
  | PInf, _ => false
  | NInf, _ => true
  | Fin _, NInf => false
  | Fin a, Fin b => match a ?= b with Gt => false | _ => true end
  end.

Definition is_zero (q : Qc) : bool :=
  match sgn q with
  | Eq => true
  | _ => false
  end.

Definition is_finite (x : jsnum) : bool :=
  match x with
  | Fin _ => true
  | _ => false
  end.

(** [Math.PI]: the double nearest to pi, 884279719003555 / 2^48. *)
Definition PI : jsnum := Fin (Q2Qc (884279719003555 # 281474976710656)).

End JsNum.

Import JsNum.

(** ** Strings *)

Module JsString.

Local Open Scope string_scope.

(** The double quote character, as a one-character string. *)
Definition dquote : string := String (ascii_of_nat 34) EmptyString.

Definition code (c : ascii) : nat := nat_of_ascii c.

(** Line terminators, which [.] in a regular expression does not match. *)
Definition is_line_terminator (c : ascii) : bool :=
  (code c =? 10)%nat || (code c =? 13)%nat.

(** White space skipped by [parseInt]: tab, LF, VT, FF, CR, space, NBSP. *)
Definition is_white_space (c : ascii) : bool :=
  ((9 <=? code c)%nat && (code c <=? 13)%nat)
  || (code c =? 32)%nat || (code c =? 160)%nat.

(** Value of a hexadecimal digit. *)
Definition hex_digit (c : ascii) : option Z :=
  let n := code c in
  if ((48 <=? n) && (n <=? 57))%nat then Some (Z.of_nat (n - 48))
  else if ((65 <=? n) && (n <=? 70))%nat then Some (Z.of_nat (n - 55))
  else if ((97 <=? n) && (n <=? 102))%nat then Some (Z.of_nat (n - 87))
  else None.

(** [s.match(/.{1,2}/g)]: the successive greedy matches of one or two
    characters that are not line terminators. *)
Fixpoint match_pairs (s : string) : list string :=
  match s with
  | EmptyString => []
  | String c rest =>
      if is_line_terminator c then match_pairs rest
      else
        match rest with
        | EmptyString => String c EmptyString :: nil
        | String d rest' =>
            if is_line_terminator d
            then String c EmptyString :: match_pairs rest'
            else String c (String d EmptyString) :: match_pairs rest'
        end
  end.

(** [String.prototype.match] with a global pattern returns [null] when
    nothing matches. *)
Definition match_all (s : string) : option (list string) :=
  match match_pairs s with
  | [] => None
  | parts => Some parts
  end.

Fixpoint skip_white_space (s : string) : string :=
  match s with
  | String c rest => if is_white_space c then skip_white_space rest else s
  | EmptyString => EmptyString
  end.

(** Sign prefix of [parseInt]: [true] for a leading minus. *)
Definition strip_sign (s : string) : bool * string :=
  match s with
  | String c rest =>
      if (code c =? 45)%nat then (true, rest)
      else if (code c =? 43)%nat then (false, rest)
      else (false, s)
  | EmptyString => (false, s)
  end.

(** Radix 16 strips a leading [0x] or [0X]. *)
Definition strip_0x (s : string) : string :=
  match s with
  | String c (String d rest) =>
      if ((code c =? 48) && ((code d =? 120) || (code d =? 88)))%nat
      then rest else s
  | _ => s
  end.

(** The longest prefix of hexadecimal digits, as digit values. *)
Fixpoint hex_prefix (s : string) : list Z :=
  match s with
  | String c rest =>
      match hex_digit c with
      | Some v => v :: hex_prefix rest
      | None => []
      end
  | EmptyString => []
  end.

Definition hex_value (ds : list Z) : Z :=
  fold_left (fun acc d => (16 * acc + d)%Z) ds 0%Z.

(** [parseInt(s, 16)] *)
Definition parseInt16 (s : string) : jsnum :=
  let (neg, s1) := strip_sign (skip_white_space s) in
  match hex_prefix (strip_0x s1) with
  | [] => NaN
  | ds => of_Z (if neg then - hex_value ds else hex_value ds)
  end.

(** [parseInt(parts[i], 16)]: a missing element is [undefined], whose
    string form starts with no hexadecimal digit. *)
Definition parseInt16_at (parts : list string) (i : nat) : jsnum :=
  match nth_error parts i with
  | Some s => parseInt16 s
  | None => NaN
  end.

(** [Array.prototype.join] on strings. *)
Fixpoint join (sep : string) (l : list string) : string :=
  match l with
  | [] => EmptyString
  | s :: nil => s
  | s :: rest => s ++ sep ++ join sep rest
  end.

(** [Number.prototype.toString]: integers below 10^21 print as plain
    decimal digits; the shortest round-trip rendering of the other finite
    doubles is the parameter [fractionToString]. *)
Definition numToString (fractionToString : Qc -> string) (x : jsnum) : string :=
  match x with
  | NaN => "NaN"
  | PInf => "Infinity"
  | NInf => "-Infinity"
  | Fin q =>
      if (Qden q =? 1)%positive && (Z.abs (Qnum q) <? 10 ^ 21)%Z
      then NilZero.string_of_int (Z.to_int (Qnum q))
      else fractionToString q
  end.

End JsString.

Import JsString.

(** ** Free helper functions of the source *)

(** [getRadian(deg)]: [Math.PI * deg / 180]. *)
Definition getRadian (deg : jsnum) : jsnum :=
  jdiv (jmul PI deg) (of_Z 180).

(** [getDegree(rad)]: [rad * 180 / Math.PI]. *)
Definition getDegree (rad : jsnum) : jsnum :=
  jdiv (jmul rad (of_Z 180)) PI.

(** [hexToRgbLine(hex)]; reading [parts[0]] of a [null] match throws. *)
Definition hexToRgbLine (fractionToString : Qc -> string) (hex : string)
  : Result string :=
  match match_all hex with
  | None => Throw (TypeError "Cannot read properties of null")
  | Some parts =>
      let r := jdiv (parseInt16_at parts 0) (of_Z 255) in
      let g := jdiv (parseInt16_at parts 1) (of_Z 255) in
      let b := jdiv (parseInt16_at parts 2) (of_Z 255) in
      Ok (join " " (map (numToString fractionToString) [r; g; b]))
  end.

(** ** The constructor's load-completion signal *)

Module Loader.

(** A promise as the constructor uses it: it is settled by the first call of
    its [resolve] function and ignores the later ones.  [settlements] counts
    the transitions out of [Pending]. *)
Inductive PromiseState : Type :=
| Pending
| Fulfilled.

Record Promise : Type := mkPromise {
  state : PromiseState;
  settlements : nat
}.

Definition resolve_promise (p : Promise) : Promise :=
  match state p with
  | Pending => {| state := Fulfilled; settlements := S (settlements p) |}
  | Fulfilled => p
  end.

(** A registered ['load'] listener.  The elements of [inlineList] are named
    by their index in that list.  Every listener runs the same closure, which
    shares [loadedCnt] and [resolve]; [once] is the listener option of that
    name, which the dispatch honours by removing the listener after its
    first run. *)
Record Listener : Type := mkListener {
  target : nat;
  once : bool
}.

Record Helper : Type := mkHelper {
  inlineCount : nat;
  loadedCnt : nat;
  listeners : list Listener;
  inlineLoaded : Promise;
  resolveCalls : nat
}.

(** [resolve()] *)
Definition resolve (h : Helper) : Helper :=
  {| inlineCount := inlineCount h;
     loadedCnt := loadedCnt h;
     listeners := listeners h;
     inlineLoaded := resolve_promise (inlineLoaded h);
     resolveCalls := S (resolveCalls h) |}.

(** A listener registered without options stays registered. *)
Definition persistent (el : nat) : Listener := {| target := el; once := false |}.

(** [el.addEventListener('load', handler)]: no options are passed. *)
Definition addEventListener (el : nat) (h : Helper) : Helper :=
  {| inlineCount := inlineCount h;
     loadedCnt := loadedCnt h;
     listeners := listeners h ++ [persistent el];
     inlineLoaded := inlineLoaded h;
     resolveCalls := resolveCalls h |}.

(** The promise executor of the constructor, for [n] inline elements. *)
Definition construct (n : nat) : Helper :=
  let h0 := {| inlineCount := n;
               loadedCnt := 0;
               listeners := [];
               inlineLoaded := {| state := Pending; settlements := 0 |};
               resolveCalls := 0 |} in
  let h1 := if n =? 0 then resolve h0 else h0 in
  fold_left (fun h el => addEventListener el h) (seq 0 n) h1.

(** The listener body: [if (++loadedCnt >= inlineList.length) resolve();] *)
Definition handler (h : Helper) : Helper :=
  let h' := {| inlineCount := inlineCount h;
               loadedCnt := S (loadedCnt h);
               listeners := listeners h;
               inlineLoaded := inlineLoaded h;
               resolveCalls := resolveCalls h |} in
  if inlineCount h' <=? loadedCnt h' then resolve h' else h'.

Definition listens_to (el : nat) (l : Listener) : bool := target l =? el.

(** A ['load'] event on element [el]: the listeners registered on it run in
    registration order, and those registered with [once] are dropped. *)
Definition dispatchLoad (el : nat) (h : Helper) : Helper :=
  let fired := filter (listens_to el) (listeners h) in
  let h1 := {| inlineCount := inlineCount h;
               loadedCnt := loadedCnt h;
               listeners :=
                 filter (fun l => negb (listens_to el l && once l)) (listeners h);
               inlineLoaded := inlineLoaded h;
               resolveCalls := resolveCalls h |} in
  fold_left (fun st _ => handler st) fired h1.

(** The helper after construction and a sequence of ['load'] events. *)
Definition run (n : nat) (evs : list nat) : Helper :=
  fold_left (fun h el => dispatchLoad el h) evs (construct n).

Definition fulfilled (h : Helper) : bool :=
  match state (inlineLoaded h) with
  | Fulfilled => true
  | Pending => false
  end.

(** Number of events of [evs] that hit one of the [n] inline elements. *)
Definition delivered (n : nat) (evs : list nat) : nat :=
  List.length (filter (fun el => el <? n) evs).

(** Every one of the [n] elements has had a ['load'] event. *)
Definition all_fired (n : nat) (evs : list nat) : bool :=
  forallb (fun i => existsb (Nat.eqb i) evs) (seq 0 n).

(** The helper of [n] inline elements once the handler has run [k] times. *)
Definition after (n k : nat) : Helper :=
  {| inlineCount := n;
     loadedCnt := k;
     listeners := map persistent (seq 0 n);
     inlineLoaded :=
       if (n =? 0) || (n <=? k) then {| state := Fulfilled; settlements := 1 |}
       else {| state := Pending; settlements := 0 |};
     resolveCalls := if n =? 0 then S k else S k - n |}.

(** The reading of the signal as one one-time listener per element. *)
Definition one_time_listeners (n : nat) (evs : list nat) : Prop :=
  Forall (fun l => once l = true) (listeners (construct n))
  /\ fulfilled (run n evs) = all_fired n evs.

End Loader.

(** ** A state and exception monad

    A call either returns or throws; the effects made before a throw stay. *)

Definition M (S A : Type) : Type := S -> Result A * S.

Definition ret {S A : Type} (a : A) : M S A := fun s => (Ok a, s).

Definition throw {S A : Type} (e : JsError) : M S A := fun s => (Throw e, s).

Definition bind {S A B : Type} (m : M S A) (k : A -> M S B) : M S B :=
  fun s =>
    match m s with
    | (Ok a, s') => k a s'
    | (Throw e, s') => (Throw e, s')
    end.

Definition lift {S A : Type} (r : Result A) : M S A := fun s => (r, s).

Declare Scope monad_scope.
Delimit Scope monad_scope with monad.
Notation "x <- m ;; k" := (bind m (fun x => k))
  (at level 61, m at next level, right associativity) : monad_scope.
Notation "m ;; k" := (bind m (fun _ => k))
  (at level 61, right associativity) : monad_scope.

(** State after a call, whether it returned or threw. *)
Definition exec {S A : Type} (m : M S A) (s : S) : S := snd (m s).

(** ** Shape elements *)

Module Shapes.

Local Open Scope string_scope.
Local Open Scope monad_scope.

(** The values that the [origAppearance] property and the [outerHTML]
    assignments of the source carry. *)
Inductive JsVal : Type :=
| VUndefined
| VNull
| VStr (s : string).

(** [!v] is [negb (truthy v)]: [undefined], [null] and the empty string are
    falsy. *)
Definition truthy (v : JsVal) : bool :=
  match v with
  | VStr (String _ _) => true
  | _ => false
  end.

(** A shape element as the helper sees it.  [appearance] is what
    [el.querySelector('appearance')] finds: [None] when there is no such
    sub-element, otherwise the value standing in its [outerHTML] property
    (its markup, or the last value assigned).  [origAppearance] is the
    property the helper adds; a fresh element has it [undefined]. *)
Record Shape : Type := mkShape {
  appearance : option JsVal;
  origAppearance : JsVal
}.

Definition null_deref {A : Type} : M Shape A :=
  throw (TypeError "Cannot read properties of null").

(** [appearance.outerHTML] *)
Definition get_outerHTML : M Shape JsVal :=
  fun el =>
    match appearance el with
    | Some v => ret v el
    | None => null_deref el
    end.

(** [appearance.outerHTML = v] *)
Definition set_outerHTML (v : JsVal) : M Shape unit :=
  fun el =>
    match appearance el with
    | Some _ =>
        ret tt {| appearance := Some v; origAppearance := origAppearance el |}
    | None => null_deref el
    end.

(** [el.origAppearance] *)
Definition get_origAppearance : M Shape JsVal :=
  fun el => ret (origAppearance el) el.

(** [el.origAppearance = v] *)
Definition set_origAppearance (v : JsVal) : M Shape unit :=
  fun el => ret tt {| appearance := appearance el; origAppearance := v |}.

Definition highlight_markup (rgb : string) : string :=
  "<Appearance><Material diffuseColor=" ++ dquote ++ rgb ++ dquote
  ++ "></Material></Appearance>".

(** [X3DomHelper.highlightShape(el, color = 'FF0000')] *)
Definition highlightShape (fractionToString : Qc -> string)
  (color : option string) : M Shape unit :=
  let color := default "FF0000" color in
  rgb <- lift (hexToRgbLine fractionToString color) ;;
  orig <- get_origAppearance ;;
  (if negb (truthy orig)
   then html <- get_outerHTML ;; set_origAppearance html
   else ret tt) ;;
  set_outerHTML (VStr (highlight_markup rgb)).

(** [X3DomHelper.restoreShapeColor(el)] *)
Definition restoreShapeColor : M Shape unit :=
  orig <- get_origAppearance ;;
  set_outerHTML orig ;;
  set_origAppearance VNull.

(** A run of [highlightShape] calls, one per colour, each in its own
    statement: a call that throws does not stop the later ones. *)
Definition highlight_all (fractionToString : Qc -> string)
  (colors : list (option string)) (el : Shape) : Shape :=
  fold_left (fun e c => exec (highlightShape fractionToString c) e) colors el.

End Shapes.

(** ** Camera operations *)

Module Camera.

Local Open Scope string_scope.
Local Open Scope monad_scope.

(** [x3dom.fields.SFVec3f] *)
Record SFVec3f : Type := mkSFVec3f {
  vx : jsnum;
  vy : jsnum;
  vz : jsnum
}.

Definition uniform (k : jsnum) : SFVec3f := {| vx := k; vy := k; vz := k |}.

(** The engine, as the capability surface the helper consumes.  [World] is
    the state behind [this.runtime] and its document; [elapse] is what the
    engine does to it while time passes (animations, rendering). *)
Record X3Dom : Type := mkX3Dom {
  Matrix : Type;
  Viewpoint : Type;
  World : Type;
  rotationX : jsnum -> Matrix;
  rotationY : jsnum -> Matrix;
  scale : SFVec3f -> Matrix;
  mult : Matrix -> Matrix -> Matrix;
  viewpoint : World -> Viewpoint;
  viewMatrix : World -> Matrix;
  runtime_resetView : World -> World;
  animateTo : Matrix -> Viewpoint -> jsnum -> World -> World;
  setView : Viewpoint -> Matrix -> World -> World;
  setNeedRender : bool -> World -> World;
  elapse : Qc -> World -> World
}.

Definition X_AXIS : string := "x".
Definition Y_AXIS : string := "y".

(** The callback handed to [setTimeout] by [rotateRoundY]: a closure over
    the arguments of the [rotate] call it makes. *)
Inductive Task : Type :=
| TaskRotate (axis : string) (angle : jsnum) (animate : bool) (duration : jsnum).

(** A pending timer: when it was set (milliseconds), the delay asked for and
    the callback. *)
Record Timer : Type := mkTimer {
  registered : Qc;
  delay : jsnum;
  task : Task
}.

Section Engine.

Variable x3dom : X3Dom.

(** Calls into the engine and the timers, as they are logged. *)
Inductive Call : Type :=
| CallViewpoint
| CallViewMatrix
| CallResetView
| CallRotationX (angle : jsnum)
| CallRotationY (angle : jsnum)
| CallScale (v : SFVec3f)
| CallMult (m r : Matrix x3dom)
| CallAnimateTo (m : Matrix x3dom) (vp : Viewpoint x3dom) (seconds : jsnum)
| CallSetView (m : Matrix x3dom) (vp : Viewpoint x3dom)
| SetNeedRender (b : bool)
| CallSetTimeout (t : Timer)
| TimerFired (t : Timer).

(** The page as the camera operations see it: the engine's state, the log of
    calls with the time of each, the clock and the pending timers. *)
Record Scene : Type := mkScene {
  world : World x3dom;
  log : list (Qc * Call);
  clock : Qc;
  timers : list Timer
}.

Definition record (c : Call) (s : Scene) : Scene :=
  {| world := world s;
     log := (log s ++ [(clock s, c)])%list;
     clock := clock s;
     timers := timers s |}.

Definition with_world (w : World x3dom) (s : Scene) : Scene :=
  {| world := w; log := log s; clock := clock s; timers := timers s |}.

(** An engine call that returns a value without changing the world. *)
Definition query {A : Type} (c : Call) (f : World x3dom -> A) : M Scene A :=
  fun s => ret (f (world s)) (record c s).

(** An engine call that changes the world. *)
Definition command (c : Call) (f : World x3dom -> World x3dom) : M Scene unit :=
  fun s => ret tt (with_world (f (world s)) (record c s)).

(** [setTimeout(callback, delay)] *)
Definition setTimeout (tk : Task) (d : jsnum) : M Scene unit :=
  fun s =>
    let t := {| registered := clock s; delay := d; task := tk |} in
    let s' := record (CallSetTimeout t) s in
    ret tt {| world := world s';
              log := log s';
              clock := clock s';
              timers := (timers s' ++ [t])%list |}.

(** The bundle returned by [_getCameraMeta]; the canvas is only the path to
    the document that [_updateViewpoint] writes to. *)
Record CameraMeta : Type := mkCameraMeta {
  cam_viewpoint : Viewpoint x3dom;
  cam_matrix : Matrix x3dom
}.

(** [_getCameraMeta()] *)
Definition _getCameraMeta : M Scene CameraMeta :=
  vp <- query CallViewpoint (viewpoint x3dom) ;;
  m <- query CallViewMatrix (viewMatrix x3dom) ;;
  ret {| cam_viewpoint := vp; cam_matrix := m |}.

(** [_updateViewpoint(matrix, animate, duration)] *)
Definition _updateViewpoint (matrix : Matrix x3dom) (animate : bool)
  (duration : jsnum) : M Scene unit :=
  camera <- _getCameraMeta ;;
  (if animate
   then
     let seconds := jdiv duration (of_Z 1000) in
     command (CallAnimateTo matrix (cam_viewpoint camera) seconds)
             (animateTo x3dom matrix (cam_viewpoint camera) seconds)
   else
     command (CallSetView matrix (cam_viewpoint camera))
             (setView x3dom (cam_viewpoint camera) matrix)) ;;
  command (SetNeedRender true) (setNeedRender x3dom true).

(** [resetView()] *)
Definition resetView : M Scene unit :=
  command CallResetView (runtime_resetView x3dom).

Definition unsupported_axis (axis : string) : JsError :=
  RangeError ("Axis " ++ dquote ++ axis ++ dquote ++ " is not supported!").

(** [rotate(axis, angle, animate = true, duration = 400)] *)
Definition rotate (axis : string) (angle : jsnum) (animate : option bool)
  (duration : option jsnum) : M Scene unit :=
  let animate := default true animate in
  let duration := default (of_Z 400) duration in
  camera <- _getCameraMeta ;;
  let angle := getRadian angle in
  rotationMatrix <-
    (if String.eqb axis X_AXIS
     then query (CallRotationX angle) (fun _ => rotationX x3dom angle)
     else if String.eqb axis Y_AXIS
     then query (CallRotationY angle) (fun _ => rotationY x3dom angle)
     else throw (unsupported_axis axis)) ;;
  newMatrix <-
    query (CallMult (cam_matrix camera) rotationMatrix)
          (fun _ => mult x3dom (cam_matrix camera) rotationMatrix) ;;
  _updateViewpoint newMatrix animate duration.

(** The callback of a timer, run. *)
Definition run_task (tk : Task) : M Scene unit :=
  match tk with
  | TaskRotate axis angle animate duration =>
      rotate axis angle (Some animate) (Some duration)
  end.

(** [rotateRoundY(duration = 4000)] *)
Definition rotateRoundY (duration : option jsnum) : M Scene unit :=
  let duration := default (of_Z 4000) duration in
  let halfTime := jdiv duration (of_Z 2) in
  rotate Y_AXIS (of_Z 180) (Some true) (Some halfTime) ;;
  setTimeout (TaskRotate Y_AXIS (of_Z 180) true halfTime) halfTime.

(** [rotateX(angle)] *)
Definition rotateX (angle : jsnum) : M Scene unit :=
  rotate X_AXIS angle None None.

(** [rotateY(angle)] *)
Definition rotateY (angle : jsnum) : M Scene unit :=
  rotate Y_AXIS angle None None.

(** The scale factor of [zoom]:
    [zoomValue > 0 ? (1 * zoomValue) : Math.abs(1 / zoomValue)] *)
Definition zoom_scalar (zoomValue : jsnum) : jsnum :=
  if jgt zoomValue zero then jmul one zoomValue
  else jabs (jdiv one zoomValue).

(** [zoom(zoomValue = 2, animate = true, duration = 400)] *)
Definition zoom (zoomValue : option jsnum) (animate : option bool)
  (duration : option jsnum) : M Scene unit :=
  let zoomValue := default (of_Z 2) zoomValue in
  let animate := default true animate in
  let duration := default (of_Z 400) duration in
  camera <- _getCameraMeta ;;
  let scalar := zoom_scalar zoomValue in
  let v := {| vx := scalar; vy := scalar; vz := scalar |} in
  scalingMatrix <- query (CallScale v) (fun _ => scale x3dom v) ;;
  newMatrix <-
    query (CallMult (cam_matrix camera) scalingMatrix)
          (fun _ => mult x3dom (cam_matrix camera) scalingMatrix) ;;
  _updateViewpoint newMatrix animate duration.

(** [zoomIn(zoomValue = 2, animate = true, duration = 400)] *)
Definition zoomIn (zoomValue : option jsnum) (animate : option bool)
  (duration : option jsnum) : M Scene unit :=
  let zoomValue := default (of_Z 2) zoomValue in
  let animate := default true animate in
  let duration := default (of_Z 400) duration in
  let zoomValue := jabs zoomValue in
  zoom (Some zoomValue) (Some animate) (Some duration).

(** [zoomOut(zoomValue = 2, animate = true, duration = 400)] *)
Definition zoomOut (zoomValue : option jsnum) (animate : option bool)
  (duration : option jsnum) : M Scene unit :=
  let zoomValue := default (of_Z 2) zoomValue in
  let animate := default true animate in
  let duration := default (of_Z 400) duration in
  let zoomValue := jmul (jabs zoomValue) (of_Z (-1)) in
  zoom (Some zoomValue) (Some animate) (Some duration).

(** *** The event loop *)

(** What the page's own code may call between two turns. *)
Inductive Op : Type :=
| OpResetView
| OpRotate (axis : string) (angle : jsnum) (animate : option bool)
    (duration : option jsnum)
| OpRotateRoundY (duration : option jsnum)
| OpRotateX (angle : jsnum)
| OpRotateY (angle : jsnum)
| OpZoom (zoomValue : option jsnum) (animate : option bool)
    (duration : option jsnum)
| OpZoomIn (zoomValue : option jsnum) (animate : option bool)
    (duration : option jsnum)
| OpZoomOut (zoomValue : option jsnum) (animate : option bool)
    (duration : option jsnum).

Definition run_op (o : Op) : M Scene unit :=
  match o with
  | OpResetView => resetView
  | OpRotate axis angle animate duration => rotate axis angle animate duration
  | OpRotateRoundY duration => rotateRoundY duration
  | OpRotateX angle => rotateX angle
  | OpRotateY angle => rotateY angle
  | OpZoom z a d => zoom z a d
  | OpZoomIn z a d => zoomIn z a d
  | OpZoomOut z a d => zoomOut z a d
  end.

(** Time passes by [dt] milliseconds. *)
Definition pass (dt : Qc) (s : Scene) : Scene :=
  {| world := elapse x3dom dt (world s);
     log := log s;
     clock := (clock s + dt)%Qc;
     timers := timers s |}.

(** The timer contract: a callback is not run before its delay has elapsed
    since [setTimeout] was called. *)
Definition due (t : Timer) (now : Qc) : bool :=
  jle (delay t) (Fin (now - registered t)%Qc).

(** A due timer leaves the queue and its callback runs. *)
Definition fire (before : list Timer) (t : Timer) (after : list Timer)
  (s : Scene) : Scene :=
  let s1 := {| world := world s;
               log := log s;
               clock := clock s;
               timers := (before ++ after)%list |} in
  exec (run_task (task t)) (record (TimerFired t) s1).

(** One turn of the event loop. *)
Inductive step : Scene -> Scene -> Prop :=
| step_pass (s : Scene) (dt : Qc) :
    (0 <= dt)%Qc -> step s (pass dt s)
| step_fire (s : Scene) (before : list Timer) (t : Timer) (after : list Timer) :
    timers s = (before ++ t :: after)%list ->
    due t (clock s) = true ->
    step s (fire before t after s)
| step_op (s : Scene) (o : Op) :
    step s (exec (run_op o) s).

Inductive steps : Scene -> Scene -> Prop :=
| steps_refl (s : Scene) : steps s s
| steps_cons (s s1 s2 : Scene) : steps s s1 -> step s1 s2 -> steps s s2.

(** The calls of a log, without their times. *)
Definition calls (l : list (Qc * Call)) : list Call := map snd l.

(** The calls that the update step makes for the matrix [m]. *)
Definition update_calls (m : Matrix x3dom) (vp : Viewpoint x3dom)
  (animate : bool) (duration : jsnum) : list Call :=
  [CallViewpoint; CallViewMatrix;
   if animate
   then CallAnimateTo m vp (jdiv duration (of_Z 1000))
   else CallSetView m vp;
   SetNeedRender true].

(** The entries that [s'] has logged beyond those of [s]. *)
Definition added (s s' : Scene) : list (Qc * Call) :=
  skipn (List.length (log s)) (log s').

(** The vectors handed to the scaling-matrix builder. *)
Definition scale_args (l : list Call) : list SFVec3f :=
  flat_map (fun c => match c with CallScale v => [v] | _ => [] end) l.

(** Only a timer's turn logs [TimerFired]. *)
Definition is_fired (c : Call) : bool :=
  match c with
  | TimerFired _ => true
  | _ => false
  end.

(** Log entries among which no timer fires. *)
Definition quiet (l : list (Qc * Call)) : Prop :=
  Forall (fun e => is_fired (snd e) = false) l.

(** A call that only adds quiet entries to the log. *)
Definition quiet_call {A : Type} (m : M Scene A) : Prop :=
  forall s, exists ext, log (exec m s) = (log s ++ ext)%list /\ quiet ext.

(** Log entries in which every timer that fires does so when it is due. *)
Definition timely (l : list (Qc * Call)) : Prop :=
  Forall (fun e => match snd e with
                   | TimerFired t => due t (fst e) = true
                   | _ => True
                   end) l.

(** No rotation matrix is built and no matrices are composed. *)
Definition no_matrix_computation (c : Call) : bool :=
  match c with
  | CallRotationX _ | CallRotationY _ | CallScale _ | CallMult _ _ => false
  | _ => true
  end.

End Engine.

Arguments CallViewpoint {x3dom}.
Arguments CallViewMatrix {x3dom}.
Arguments CallResetView {x3dom}.
Arguments CallRotationX {x3dom} angle.
Arguments CallRotationY {x3dom} angle.
Arguments CallScale {x3dom} v.
Arguments CallMult {x3dom} m r.
Arguments CallAnimateTo {x3dom} m vp seconds.
Arguments CallSetView {x3dom} m vp.
Arguments SetNeedRender {x3dom} b.
Arguments CallSetTimeout {x3dom} t.
Arguments TimerFired {x3dom} t.
Arguments update_calls {x3dom} m vp animate duration.

(** *** A symbolic engine

    Matrices are the terms built by the engine's constructors and the world
    is the current view matrix; it serves to run the operations. *)
Inductive SymMatrix : Type :=
| Initial
| RotX (angle : jsnum)
| RotY (angle : jsnum)
| Scaling (v : SFVec3f)
| Product (m r : SymMatrix).

Definition symbolic : X3Dom :=
  {| Matrix := SymMatrix;
     Viewpoint := unit;
     World := SymMatrix;
     rotationX := RotX;
     rotationY := RotY;
     scale := Scaling;
     mult := Product;
     viewpoint := fun _ => tt;
     viewMatrix := fun w => w;
     runtime_resetView := fun _ => Initial;
     animateTo := fun m _ _ _ => m;
     setView := fun _ m _ => m;
     setNeedRender := fun _ w => w;
     elapse := fun _ w => w |}.

Definition start : Scene symbolic :=
  @mkScene symbolic Initial [] (Q2Qc 0) [].

End Camera.

(** ** The channels of a colour *)

(** The array [[r, g, b]] that [hexToRgbLine] builds before joining it;
    [None] when the match is [null]. *)
Definition hexChannels (hex : string) : option (list jsnum) :=
  match match_all hex with
  | None => None
  | Some parts =>
      Some [jdiv (parseInt16_at parts 0) (of_Z 255);
            jdiv (parseInt16_at parts 1) (of_Z 255);
            jdiv (parseInt16_at parts 2) (of_Z 255)]
  end.

(** ** Attributes: visibility and the background colour *)

Module Dom.

Local Open Scope string_scope.
Local Open Scope monad_scope.

(** The attributes of an element, in document order. *)
Definition Attrs : Type := list (string * string).

(** [el.getAttribute(name)] *)
Fixpoint getAttribute (name : string) (attrs : Attrs) : option string :=
  match attrs with
  | [] => None
  | (n, v) :: rest =>
      if String.eqb n name then Some v else getAttribute name rest
  end.

(** [el.setAttribute(name, value)]: an attribute of that name is changed in
    place, a new one is added at the end. *)
Fixpoint setAttribute (name value : string) (attrs : Attrs) : Attrs :=
  match attrs with
  | [] => [(name, value)]
  | (n, v) :: rest =>
      if String.eqb n name then (n, value) :: rest
      else (n, v) :: setAttribute name value rest
  end.

(** The string that [setAttribute] makes of a boolean. *)
Definition bool_to_string (b : bool) : string :=
  if b then "true" else "false".

(** [X3DomHelper.toggleElement(el, state)] *)
Definition toggleElement (el : Attrs) (state : bool) : Attrs :=
  setAttribute "render" (bool_to_string state) el.

(** [X3DomHelper.hideElement(el)] *)
Definition hideElement (el : Attrs) : Attrs := toggleElement el false.

(** [X3DomHelper.showElement(el)] *)
Definition showElement (el : Attrs) : Attrs := toggleElement el true.

(** The part of [this.dom] that [setSkyColorRGB] reaches: the attributes of
    the element that [querySelector('background')] finds, if any. *)
Record Document : Type := mkDocument {
  background : option Attrs
}.

(** [this.dom.querySelector('background').setAttribute('skycolor', rgb)] *)
Definition set_skycolor (rgb : string) : M Document unit :=
  fun d =>
    match background d with
    | Some attrs =>
        ret tt {| background := Some (setAttribute "skycolor" rgb attrs) |}
    | None => throw (TypeError "Cannot read properties of null") d
    end.

(** [setSkyColorRGB(color)] *)
Definition setSkyColorRGB (fractionToString : Qc -> string) (color : string)
  : M Document unit :=
  rgb <- lift (hexToRgbLine fractionToString color) ;;
  set_skycolor rgb.

End Dom.

(** ** Highlight and restore, as one cycle *)

Module ShapeCycles.

Import Shapes.

(** [highlightShape(el, color)] followed by [restoreShapeColor(el)]. *)
Definition highlight_restore (fractionToString : Qc -> string)
  (el : Shape) (color : option string) : Shape :=
  exec restoreShapeColor (exec (highlightShape fractionToString color) el).

End ShapeCycles.

(** ** Listeners on the shapes of an inline scene *)

Module Inline.

Import Loader.
Local Open Scope string_scope.

Section Document.

(** The document is abstract: [querySelector d sel] is what
    [this.dom.querySelector(sel)] finds in [d], and
    [querySelectorAll d inline sel] what [inline.querySelectorAll(sel)]
    finds below the element [inline]. *)
Variable Doc : Type.
Variable querySelector : Doc -> string -> option nat.
Variable querySelectorAll : Doc -> nat -> string -> list nat.

(** The arguments that one [addInlineListener] call closes over; callbacks
    are named by numbers. *)
Record Registration : Type := mkRegistration {
  reg_event : string;
  reg_callback : nat;
  reg_inline : string;
  reg_target : string
}.

(** A listener that the helper has put on a shape. *)
Record Attached : Type := mkAttached {
  att_target : nat;
  att_event : string;
  att_callback : nat
}.

(** The page: the helper of [Loader], the document, the reactions waiting on
    [inlineLoaded], those that have run, the listeners attached so far and
    the number of reactions that threw. *)
Record Page : Type := mkPage {
  helper : Helper;
  doc : Doc;
  reactions : list Registration;
  ran : list Registration;
  attached : list Attached;
  rejected : nat
}.

(** The callback handed to [then]: find the inline element, then put the
    listener on each target below it. *)
Definition attach (r : Registration) : M Page unit :=
  fun p =>
    match querySelector (doc p) (reg_inline r) with
    | None => throw (TypeError "Cannot read properties of null") p
    | Some inline =>
        ret tt
          {| helper := helper p;
             doc := doc p;
             reactions := reactions p;
             ran := ran p;
             attached :=
               attached p
               ++ map (fun el => {| att_target := el;
                                    att_event := reg_event r;
                                    att_callback := reg_callback r |})
                    (querySelectorAll (doc p) inline (reg_target r));
             rejected := rejected p |}
    end.

(** A reaction runs; if its callback throws, the promise that [then]
    returned is rejected and nothing reaches the caller. *)
Definition run_reaction (p : Page) (r : Registration) : Page :=
  let p1 := {| helper := helper p;
               doc := doc p;
               reactions := reactions p;
               ran := ran p ++ [r];
               attached := attached p;
               rejected := rejected p |} in
  match attach r p1 with
  | (Ok _, p2) => p2
  | (Throw _, p2) =>
      {| helper := helper p2;
         doc := doc p2;
         reactions := reactions p2;
         ran := ran p2;
         attached := attached p2;
         rejected := S (rejected p2) |}
  end.

(** The end of a turn: the reactions of a fulfilled promise run, in the
    order of their registration; those of a pending one wait. *)
Definition drain (p : Page) : Page :=
  if fulfilled (helper p)
  then fold_left run_reaction (reactions p)
         {| helper := helper p;
            doc := doc p;
            reactions := [];
            ran := ran p;
            attached := attached p;
            rejected := rejected p |}
  else p.

(** [addInlineListener(event, callback, inlineSelector = 'inline',
    targetSelector = 'shape')]: [this.inlineLoaded.then(...)] registers the
    reaction and returns. *)
Definition addInlineListener (event : string) (callback : nat)
  (inlineSelector targetSelector : option string) (p : Page) : Page :=
  {| helper := helper p;
     doc := doc p;
     reactions :=
       reactions p
       ++ [{| reg_event := event;
              reg_callback := callback;
              reg_inline := default "inline" inlineSelector;
              reg_target := default "shape" targetSelector |}];
     ran := ran p;
     attached := attached p;
     rejected := rejected p |}.

(** What a turn of the page does before its reactions run: a ['load'] event
    is delivered, the page's code calls [addInlineListener], or the document
    changes. *)
Inductive Turn : Type :=
| LoadEvent (el : nat)
| Register (event : string) (callback : nat)
    (inlineSelector targetSelector : option string)
| Mutate (d : Doc).

Definition turn (p : Page) (t : Turn) : Page :=
  drain
    match t with
    | LoadEvent el =>
        {| helper := dispatchLoad el (helper p);
           doc := doc p;
           reactions := reactions p;
           ran := ran p;
           attached := attached p;
           rejected := rejected p |}
    | Register event callback inlineSelector targetSelector =>
        addInlineListener event callback inlineSelector targetSelector p
    | Mutate d =>
        {| helper := helper p;
           doc := d;
           reactions := reactions p;
           ran := ran p;
           attached := attached p;
           rejected := rejected p |}
    end.

(** The page after [new X3DomHelper(domId)] over [n] inline elements. *)
Definition open_page (n : nat) (d : Doc) : Page :=
  drain {| helper := construct n;
           doc := d;
           reactions := [];
           ran := [];
           attached := [];
           rejected := 0 |}.

Definition run_turns (n : nat) (d : Doc) (ts : list Turn) : Page :=
  fold_left turn ts (open_page n d).

(** The registrations made by a sequence of turns, in order. *)
Definition registrations (ts : list Turn) : list Registration :=
  flat_map (fun t => match t with
                     | Register event callback inlineSelector targetSelector =>
                         [{| reg_event := event;
                             reg_callback := callback;
                             reg_inline := default "inline" inlineSelector;
                             reg_target := default "shape" targetSelector |}]
                     | _ => []
                     end) ts.

(** The ['load'] events of a sequence of turns, in order. *)
Definition loads (ts : list Turn) : list nat :=
  flat_map (fun t => match t with LoadEvent el => [el] | _ => [] end) ts.

End Document.

Arguments LoadEvent {Doc} el.
Arguments Register {Doc} event callback inlineSelector targetSelector.

End Inline.

(** ** The ledger of timers *)

Module Ledger.

Import Camera.

Section Engine.

Variable x3dom : X3Dom.

(** The timers that the entries of a log have set. *)
Definition scheduled (l : list (Qc * Call x3dom)) : list Timer :=
  flat_map (fun e => match snd e with CallSetTimeout t => [t] | _ => [] end) l.

(** The timers that the entries of a log have fired. *)
Definition fired (l : list (Qc * Call x3dom)) : list Timer :=
  flat_map (fun e => match snd e with TimerFired t => [t] | _ => [] end) l.

(** A call other than [setTimeout] and a timer's turn. *)
Definition is_plain (c : Call x3dom) : bool :=
  match c with
  | CallSetTimeout _ | TimerFired _ => false
  | _ => true
  end.

(** A call that fires no timer, queues exactly the timers it sets behind
    the pending ones and leaves the clock alone. *)
Definition tracked_call {A : Type} (m : M (Scene x3dom) A) : Prop :=
  forall s, exists ext,
    log (exec m s) = (log s ++ ext)%list
    /\ fired ext = []
    /\ timers (exec m s) = (timers s ++ scheduled ext)%list
    /\ clock (exec m s) = clock s.

End Engine.

End Ledger.

(** ** Reading results *)

Definition is_throw {A : Type} (r : Result A) : bool :=
  match r with
  | Throw _ => true
  | Ok _ => false
  end.

(** A string in which [.] matches nothing. *)
Fixpoint only_line_terminators (s : string) : bool :=
  match s with
  | EmptyString => true
  | String c rest => is_line_terminator c && only_line_terminators rest
  end.

(** A channel value between 0 and 1. *)
Definition in_unit_range (c : jsnum) : bool := jle zero c && jle c one.

(** ** Which camera operations can throw *)

Module Throwing.

Import Camera.

(** The operations that [rotate] rejects: those whose axis is neither
    [X_AXIS] nor [Y_AXIS]. *)
Definition rejected_op (o : Op) : bool :=
  match o with
  | OpRotate axis _ _ _ => negb (String.eqb axis X_AXIS || String.eqb axis Y_AXIS)
  | _ => false
  end.

End Throwing.

(** * Properties *)

(** ** The load-completion signal *)

Section LoaderFacts.

Import Loader.

Lemma add_listeners (l : list nat) (h : Helper) :
  fold_left (fun h el => addEventListener el h) l h =
  {| inlineCount := inlineCount h;
     loadedCnt := loadedCnt h;
     listeners := listeners h ++ map persistent l;
     inlineLoaded := inlineLoaded h;
     resolveCalls := resolveCalls h |}.
Proof.
  revert h; induction l as [|el l IH]; intros h; simpl.
  - rewrite app_nil_r. now destruct h.
  - rewrite IH; simpl. now rewrite <- app_assoc.
Qed.

Lemma construct_eq (n : nat) :
  construct n =
  {| inlineCount := n;
     loadedCnt := 0;
     listeners := map persistent (seq 0 n);
     inlineLoaded :=
       if n =? 0 then {| state := Fulfilled; settlements := 1 |}
       else {| state := Pending; settlements := 0 |};
     resolveCalls := if n =? 0 then 1 else 0 |}.
Proof.
  unfold construct; rewrite add_listeners.
  destruct (n =? 0); reflexivity.
Qed.

Lemma filter_listens (el a n : nat) :
  filter (listens_to el) (map persistent (seq a n)) =
  if (a <=? el) && (el <? a + n) then [persistent el] else [].
Proof.
  revert a; induction n as [|n IH]; intros a; cbn [seq map filter].
  - rewrite Nat.add_0_r.
    destruct (Nat.leb_spec a el), (Nat.ltb_spec el a); simpl; trivial; lia.
  - rewrite IH. unfold listens_to; cbn [target persistent].
    destruct (Nat.eqb_spec a el), (Nat.leb_spec (S a) el),
      (Nat.ltb_spec el (S a + n)), (Nat.leb_spec a el),
      (Nat.ltb_spec el (a + S n)); subst; simpl; trivial; lia.
Qed.

Lemma filter_persistent (el : nat) (l : list nat) :
  filter (fun x => negb (listens_to el x && once x)) (map persistent l) =
  map persistent l.
Proof.
  induction l as [|i l IH]; simpl; trivial.
  rewrite andb_false_r; simpl. now rewrite IH.
Qed.

(** With the listeners of the constructor in place, an event on one of the
    [n] elements runs the handler once and any other event does nothing. *)
Lemma dispatchLoad_persistent (n el : nat) (h : Helper) :
  listeners h = map persistent (seq 0 n) ->
  dispatchLoad el h = if el <? n then handler h else h.
Proof.
  intros Hl. unfold dispatchLoad.
  rewrite Hl, filter_listens, filter_persistent, <- Hl; simpl.
  replace {| inlineCount := inlineCount h; loadedCnt := loadedCnt h;
             listeners := listeners h; inlineLoaded := inlineLoaded h;
             resolveCalls := resolveCalls h |} with h by now destruct h.
  destruct (el <? n); reflexivity.
Qed.

Lemma construct_after (n : nat) : construct n = after n 0.
Proof.
  rewrite construct_eq; unfold after.
  destruct n; reflexivity.
Qed.

Lemma handler_after (n k : nat) : handler (after n k) = after n (S k).
Proof.
  unfold handler, after;
    cbn [inlineCount loadedCnt listeners inlineLoaded resolveCalls].
  destruct (Nat.eqb_spec n 0) as [Hn|Hn], (Nat.leb_spec n (S k)),
    (Nat.leb_spec n k); try lia; unfold resolve, resolve_promise;
    cbn [inlineCount loadedCnt listeners inlineLoaded resolveCalls
         state settlements orb];
    f_equal; lia.
Qed.

Lemma run_after (n : nat) (evs : list nat) :
  run n evs = after n (delivered n evs).
Proof.
  unfold run. rewrite construct_after.
  assert (G : forall k, fold_left (fun h el => dispatchLoad el h) evs (after n k)
                        = after n (k + delivered n evs)).
  { induction evs as [|el evs IH]; intros k; simpl.
    - unfold delivered; simpl. now rewrite Nat.add_0_r.
    - rewrite (dispatchLoad_persistent n) by reflexivity.
      unfold delivered in *; simpl.
      destruct (el <? n); simpl.
      + rewrite handler_after, IH. f_equal; lia.
      + apply IH. }
  apply (G 0).
Qed.

Lemma fulfilled_after (n k : nat) :
  fulfilled (after n k) = (n =? 0) || (n <=? k).
Proof.
  unfold fulfilled, after; cbn [inlineLoaded].
  destruct ((n =? 0) || (n <=? k)); reflexivity.
Qed.

Lemma settlements_after (n k : nat) :
  settlements (inlineLoaded (after n k)) = if fulfilled (after n k) then 1 else 0.
Proof.
  rewrite fulfilled_after. unfold after; cbn [inlineLoaded].
  destruct ((n =? 0) || (n <=? k)); reflexivity.
Qed.

Lemma delivered_app (n : nat) (evs more : list nat) :
  delivered n (evs ++ more) = delivered n evs + delivered n more.
Proof.
  unfold delivered. now rewrite filter_app, length_app.
Qed.

Lemma all_fired_spec (n : nat) (evs : list nat) :
  all_fired n evs = true <-> incl (seq 0 n) evs.
Proof.
  unfold all_fired, incl. rewrite forallb_forall.
  split; intros H i Hi.
  - apply H in Hi. apply existsb_exists in Hi as (j & Hj & E).
    apply Nat.eqb_eq in E. now subst.
  - apply existsb_exists. exists i. split; [auto | apply Nat.eqb_refl].
Qed.

(** When no element fires twice, the counter reaches [n] exactly when each
    of the [n] elements has fired. *)
Lemma counted_all (n : nat) (evs : list nat) :
  NoDup evs -> (n <= delivered n evs <-> incl (seq 0 n) evs).
Proof.
  intros Hnd. unfold delivered.
  set (hits := filter (fun el => el <? n) evs).
  assert (Hin : incl hits (seq 0 n)).
  { intros i Hi. apply filter_In in Hi as [_ Hi].
    apply Nat.ltb_lt in Hi. apply in_seq. lia. }
  split; intros H.
  - assert (Hback : incl (seq 0 n) hits).
    { apply NoDup_length_incl; trivial.
      - now apply NoDup_filter.
      - now rewrite length_seq. }
    intros i Hi. apply Hback in Hi. now apply filter_In in Hi.
  - pose proof (@NoDup_incl_length _ (seq 0 n) hits (seq_NoDup n 0)) as L.
    rewrite length_seq in L. apply L.
    intros i Hi. apply filter_In. split; [now apply H|].
    apply in_seq in Hi. apply Nat.ltb_lt. lia.
Qed.

(** C1: the load-completion signal is settled exactly once.  With no inline
    element the constructor fulfils it at once; with [n > 0] elements it is
    fulfilled exactly when the count of completed loads has reached [n]; the
    promise is settled once if fulfilled and not at all otherwise, and events
    that come after the resolution leave it fulfilled and settled once.  The
    run of the events is a total function: no event makes it fail. *)
Theorem inlineLoaded_resolves_once (n : nat) (evs more : list nat) :
  fulfilled (construct 0) = true
  /\ loadedCnt (run n evs) = delivered n evs
  /\ fulfilled (run n evs) = (n =? 0) || (n <=? loadedCnt (run n evs))
  /\ settlements (inlineLoaded (run n evs)) =
     (if fulfilled (run n evs) then 1 else 0)
  /\ (fulfilled (run n evs) = true ->
      fulfilled (run n (evs ++ more)) = true
      /\ settlements (inlineLoaded (run n (evs ++ more))) = 1).
Proof.
  rewrite !run_after, delivered_app.
  repeat split.
  - apply fulfilled_after.
  - apply settlements_after.
  - rewrite !fulfilled_after in *.
    destruct (Nat.eqb_spec n 0); simpl in *; trivial.
    apply Nat.leb_le. apply Nat.leb_le in H. lia.
  - rewrite settlements_after.
    replace (fulfilled (after n (delivered n evs + delivered n more))) with true;
      trivial.
    symmetry. rewrite !fulfilled_after in *.
    destruct (Nat.eqb_spec n 0); simpl in *; trivial.
    apply Nat.leb_le. apply Nat.leb_le in H. lia.
Qed.

Lemma inlineLoaded_resolves_once_witness :
  fulfilled (run 2 ([0; 1] ++ [1; 0; 1])) = true
  /\ settlements (inlineLoaded (run 2 ([0; 1] ++ [1; 0; 1]))) = 1.
Proof.
  apply (proj2 (proj2 (proj2 (proj2
    (inlineLoaded_resolves_once 2 [0; 1] [1; 0; 1]))))).
  reflexivity.
Defined.




End LoaderFacts.

(** ** Numbers *)

Section NumberFacts.

Local Open Scope Qc_scope.

Lemma sgn_zero (q : Qc) : sgn q = Eq <-> q = 0.
Proof. unfold sgn. symmetry. apply Qceq_alt. Qed.

Lemma sgn_abs (q : Qc) : sgn (Qcabs q) = match sgn q with Eq => Eq | _ => Gt end.
Proof.
  unfold sgn.
  destruct (q ?= 0) eqn:E.
  - apply Qceq_alt in E. subst. reflexivity.
  - apply Qclt_alt in E. rewrite Qcabs_neg by now apply Qclt_le_weak.
    apply Qcgt_alt. apply Qclt_minus_iff in E. now rewrite Qcplus_0_l in E.
  - apply Qcgt_alt in E. rewrite Qcabs_pos by now apply Qclt_le_weak.
    now apply Qcgt_alt.
Qed.

Lemma Qcabs_inv (q : Qc) : Qcabs (/ q) = / Qcabs q.
Proof.
  apply Qc_is_canon. unfold Qcabs, Qcinv, Q2Qc; cbn [this].
  rewrite !Qred_correct. apply Qabs_Qinv.
Qed.

(** [1 * x] is [x]. *)
Lemma jmul_one_l (x : jsnum) : jmul one x = x.
Proof.
  destruct x as [| | |q]; try reflexivity.
  unfold jmul, one, of_Z. f_equal. apply Qcmult_1_l.
Qed.

(** [Math.abs(1 / x)] is [1 / Math.abs(x)]. *)
Lemma jabs_reciprocal (x : jsnum) : jabs (jdiv one x) = jdiv one (jabs x).
Proof.
  destruct x as [| | |q]; try reflexivity.
  - unfold jdiv, jabs, one, zero, of_Z. f_equal. now apply Qc_is_canon.
  - unfold jdiv, jabs, one, zero, of_Z. f_equal. now apply Qc_is_canon.
  - unfold jdiv, jabs, one, of_Z. rewrite sgn_abs.
    destruct (sgn q); try reflexivity;
      unfold Qcdiv; now rewrite Qcabs_Qcmult, Qcabs_inv.
Qed.

(** [x * -1] is the negation of [x]. *)
Lemma jmul_minus_one (x : jsnum) : jmul x (of_Z (-1)) = jneg x.
Proof.
  destruct x as [| | |q]; try reflexivity.
  unfold jmul, jneg, of_Z. f_equal.
  change (Q2Qc (inject_Z (-1))) with (- (1))%Qc. ring.
Qed.

End NumberFacts.

(** ** Colour conversion *)

Section ColourFacts.

Local Open Scope string_scope.

Variable fractionToString : Qc -> string.

(** A hexadecimal digit is neither a line terminator, nor white space, nor
    a sign, nor the [x] of a radix prefix. *)
Lemma hex_digit_plain (c : ascii) (v : Z) :
  hex_digit c = Some v ->
  is_line_terminator c = false
  /\ is_white_space c = false
  /\ (code c =? 45)%nat = false
  /\ (code c =? 43)%nat = false
  /\ (code c =? 120)%nat = false
  /\ (code c =? 88)%nat = false.
Proof.
  destruct c as [[] [] [] [] [] [] [] []]; vm_compute; intros H;
    try discriminate H; repeat split.
Qed.

Lemma match_pairs_hex6 (c1 c2 c3 c4 c5 c6 : ascii) :
  is_line_terminator c1 = false -> is_line_terminator c2 = false ->
  is_line_terminator c3 = false -> is_line_terminator c4 = false ->
  is_line_terminator c5 = false -> is_line_terminator c6 = false ->
  match_pairs
    (String c1 (String c2 (String c3 (String c4 (String c5 (String c6 ""))))))
  = [String c1 (String c2 ""); String c3 (String c4 "");
     String c5 (String c6 "")].
Proof.
  intros H1 H2 H3 H4 H5 H6. cbn [match_pairs].
  now rewrite H1, H2, H3, H4, H5, H6.
Qed.

(** Two hexadecimal digits parse to the byte they spell. *)
Lemma parseInt16_pair (c d : ascii) (v w : Z) :
  hex_digit c = Some v -> hex_digit d = Some w ->
  parseInt16 (String c (String d "")) = of_Z (16 * v + w).
Proof.
  intros Hc Hd.
  destruct (@hex_digit_plain c v Hc) as (_ & Hws & Hm & Hp & _ & _).
  destruct (@hex_digit_plain d w Hd) as (_ & _ & _ & _ & Hx & HX).
  unfold parseInt16. cbn [skip_white_space]. rewrite Hws.
  unfold strip_sign. rewrite Hm, Hp.
  unfold strip_0x. rewrite Hx, HX, andb_false_r.
  cbn [hex_prefix]. rewrite Hc, Hd.
  reflexivity.
Qed.

(** C9: a string of six hexadecimal digits is converted to the three
    channels, each the byte its two digits spell divided by 255, printed and
    joined by single spaces; pure red, black and white give ["1 0 0"],
    ["0 0 0"] and ["1 1 1"]. *)
Theorem hexToRgbLine_six_digits
  (c1 c2 c3 c4 c5 c6 : ascii) (v1 v2 v3 v4 v5 v6 : Z) :
  hex_digit c1 = Some v1 -> hex_digit c2 = Some v2 ->
  hex_digit c3 = Some v3 -> hex_digit c4 = Some v4 ->
  hex_digit c5 = Some v5 -> hex_digit c6 = Some v6 ->
  hexToRgbLine fractionToString
    (String c1 (String c2 (String c3 (String c4 (String c5 (String c6 ""))))))
  = Ok (numToString fractionToString (jdiv (of_Z (16 * v1 + v2)) (of_Z 255))
        ++ " "
        ++ numToString fractionToString (jdiv (of_Z (16 * v3 + v4)) (of_Z 255))
        ++ " "
        ++ numToString fractionToString (jdiv (of_Z (16 * v5 + v6)) (of_Z 255)))
  /\ hexToRgbLine fractionToString "FF0000" = Ok "1 0 0"
  /\ hexToRgbLine fractionToString "000000" = Ok "0 0 0"
  /\ hexToRgbLine fractionToString "FFFFFF" = Ok "1 1 1".
Proof.
  intros H1 H2 H3 H4 H5 H6. split; [|repeat split; vm_compute; reflexivity].
  unfold hexToRgbLine, match_all.
  rewrite match_pairs_hex6 by (eapply hex_digit_plain; eassumption).
  unfold parseInt16_at; cbn [nth_error].
  rewrite (@parseInt16_pair _ _ _ _ H1 H2), (@parseInt16_pair _ _ _ _ H3 H4),
    (@parseInt16_pair _ _ _ _ H5 H6).
  reflexivity.
Qed.

End ColourFacts.

Lemma hexToRgbLine_six_digits_witness :
  hexToRgbLine (fun _ => "0.5019607843137255"%string) "80ff00"
  = Ok ("0.5019607843137255 1 0")%string.
Proof.
  refine (eq_trans
    (proj1 (@hexToRgbLine_six_digits (fun _ => "0.5019607843137255"%string)
       "8" "0" "f" "f" "0" "0" 8 0 15 15 0 0
       eq_refl eq_refl eq_refl eq_refl eq_refl eq_refl)) _).
  vm_compute. reflexivity.
Defined.

(** ** Highlighting and restoring a shape *)

Section ShapeFacts.

Import Shapes.
Local Open Scope string_scope.

Variable fractionToString : Qc -> string.

(** A call on an element that holds a stash and an appearance sub-element
    keeps the stash and the sub-element, whether it returns or throws. *)
Lemma highlightShape_keeps_stash (color : option string) (el : Shape) :
  truthy (origAppearance el) = true ->
  appearance el <> None ->
  origAppearance (exec (highlightShape fractionToString color) el)
  = origAppearance el
  /\ appearance (exec (highlightShape fractionToString color) el) <> None.
Proof.
  intros Hs Ha. unfold exec, highlightShape, bind, lift.
  destruct (hexToRgbLine fractionToString (default "FF0000" color)) as [rgb|e];
    cbn [snd]; [|now split].
  unfold get_origAppearance, ret. rewrite Hs. cbn [negb].
  unfold set_outerHTML, ret.
  destruct (appearance el) as [a|]; [|contradiction].
  cbn [snd origAppearance appearance]. now split.
Qed.

Lemma highlight_all_keeps_stash (colors : list (option string)) (el : Shape) :
  truthy (origAppearance el) = true ->
  appearance el <> None ->
  origAppearance (highlight_all fractionToString colors el) = origAppearance el
  /\ appearance (highlight_all fractionToString colors el) <> None.
Proof.
  revert el; induction colors as [|c colors IH]; intros el Hs Ha;
    cbn [highlight_all fold_left]; [now split|].
  destruct (highlightShape_keeps_stash c el Hs Ha) as [E1 E2].
  fold (highlight_all fractionToString colors
          (exec (highlightShape fractionToString c) el)).
  rewrite <- E1. apply IH; [now rewrite E1 | exact E2].
Qed.

Lemma restoreShapeColor_eq (el : Shape) (a : JsVal) :
  appearance el = Some a ->
  restoreShapeColor el
  = (Ok tt, {| appearance := Some (origAppearance el); origAppearance := VNull |}).
Proof.
  intros Ha. unfold restoreShapeColor, bind, get_origAppearance, set_outerHTML,
    set_origAppearance, ret.
  now rewrite Ha.
Qed.



End ShapeFacts.



(** ** Camera operations *)

Section CameraFacts.

Import Camera.
Local Open Scope string_scope.

Variable x3dom : X3Dom.

Lemma added_app (s s' : Scene x3dom) (ext : list (Qc * Call x3dom)) :
  log s' = (log s ++ ext)%list -> added s s' = ext.
Proof.
  intros E. unfold added. rewrite E.
  rewrite skipn_app, skipn_all, Nat.sub_diag. reflexivity.
Qed.

Lemma getCameraMeta_eq (s : Scene x3dom) :
  _getCameraMeta s
  = (Ok {| cam_viewpoint := viewpoint x3dom (world s);
           cam_matrix := viewMatrix x3dom (world s) |},
     record CallViewMatrix (record CallViewpoint s)).
Proof. reflexivity. Qed.

(** What the update step does to the engine. *)
Lemma updateViewpoint_world (m : Matrix x3dom) (animate : bool)
  (duration : jsnum) (s : Scene x3dom) :
  let w := world s in
  world (exec (_updateViewpoint m animate duration) s)
  = setNeedRender x3dom true
      (if animate
       then animateTo x3dom m (viewpoint x3dom w) (jdiv duration (of_Z 1000)) w
       else setView x3dom (viewpoint x3dom w) m w).
Proof. destruct animate; reflexivity. Qed.

(** C3: for an axis that is neither [X_AXIS] nor [Y_AXIS], [rotate] throws a
    [RangeError] whose message quotes the axis; by then it has only read the
    viewpoint and the view matrix: no rotation matrix was built, nothing was
    composed and the engine's state is as before. *)
Theorem rotate_unsupported_axis (axis : string) (angle : jsnum)
  (animate : option bool) (duration : option jsnum) (s : Scene x3dom) :
  axis <> X_AXIS -> axis <> Y_AXIS ->
  let s' := exec (rotate axis angle animate duration) s in
  fst (rotate axis angle animate duration s)
  = Throw (RangeError ("Axis " ++ dquote ++ axis ++ dquote ++ " is not supported!"))
  /\ calls (added s s') = [CallViewpoint; CallViewMatrix]
  /\ forallb (@no_matrix_computation x3dom) (calls (added s s')) = true
  /\ world s' = world s.
Proof.
  intros Hx Hy s'.
  assert (E : rotate axis angle animate duration s
              = (Throw (unsupported_axis axis),
                 record CallViewMatrix (record CallViewpoint s))).
  { unfold rotate, bind. rewrite getCameraMeta_eq.
    apply String.eqb_neq in Hx, Hy. rewrite Hx, Hy. reflexivity. }
  assert (A : added s s' = [(clock s, CallViewpoint); (clock s, CallViewMatrix)]).
  { apply added_app. unfold s', exec. rewrite E. cbn [snd record log clock].
    now rewrite <- app_assoc. }
  unfold s', exec in *. rewrite E in *. rewrite A.
  repeat split.
Qed.

Lemma calls_stamped (now : Qc) (l : list (Call x3dom)) :
  calls (map (pair now) l) = l.
Proof.
  unfold calls. rewrite map_map. cbn [snd]. apply map_id.
Qed.

(** The update step returns, and logs its calls at the current time. *)
Lemma updateViewpoint_log (m : Matrix x3dom) (animate : bool)
  (duration : jsnum) (s : Scene x3dom) :
  fst (_updateViewpoint m animate duration s) = Ok tt
  /\ log (exec (_updateViewpoint m animate duration) s)
     = (log s ++ map (pair (clock s))
                   (update_calls m (viewpoint x3dom (world s)) animate duration))%list.
Proof.
  destruct animate; (split; [reflexivity|]);
    unfold exec, _updateViewpoint, update_calls;
    cbn [bind _getCameraMeta query command ret record with_world log snd
         world clock cam_matrix cam_viewpoint map];
    now rewrite <- !app_assoc.
Qed.

(** An operation that reads the camera, builds a matrix, composes it with
    the view matrix and runs the update step logs those calls in that
    order. *)
Lemma composed_calls (build : Call x3dom) (built : Matrix x3dom)
  (animate : bool) (duration : jsnum) (s : Scene x3dom) :
  let current := viewMatrix x3dom (world s) in
  let product := mult x3dom current built in
  let s4 := record (CallMult current built)
              (record build (record CallViewMatrix (record CallViewpoint s))) in
  fst (_updateViewpoint product animate duration s4) = Ok tt
  /\ calls (added s (exec (_updateViewpoint product animate duration) s4))
     = ([CallViewpoint; CallViewMatrix; build; CallMult current built]
        ++ update_calls product (viewpoint x3dom (world s)) animate duration)%list.
Proof.
  intros current product s4.
  destruct (updateViewpoint_log product animate duration s4) as [R L].
  split; trivial.
  rewrite (added_app s _
             (map (pair (clock s))
                ([CallViewpoint; CallViewMatrix; build; CallMult current built]
                 ++ update_calls product (viewpoint x3dom (world s))
                      animate duration))).
  - apply calls_stamped.
  - rewrite L. unfold s4. cbn [record log clock world].
    rewrite map_app. cbn [map]. now rewrite <- !app_assoc.
Qed.


(** [zoom] returns, and builds one scaling matrix. *)
Lemma zoom_calls (zoomValue : option jsnum) (animate : option bool)
  (duration : option jsnum) (s : Scene x3dom) :
  let v := uniform (zoom_scalar (default (of_Z 2) zoomValue)) in
  fst (zoom zoomValue animate duration s) = Ok tt
  /\ scale_args (calls (added s (exec (zoom zoomValue animate duration) s)))
     = [v].
Proof.
  intros v.
  destruct (composed_calls (CallScale v) (scale x3dom v)
              (default true animate) (default (of_Z 400) duration) s) as [R C].
  split; [exact R|].
  change (exec (zoom zoomValue animate duration) s)
    with (exec (_updateViewpoint
                  (mult x3dom (viewMatrix x3dom (world s)) (scale x3dom v))
                  (default true animate) (default (of_Z 400) duration))
            (record (CallMult (viewMatrix x3dom (world s)) (scale x3dom v))
               (record (CallScale v)
                  (record CallViewMatrix (record CallViewpoint s))))).
  rewrite C. unfold update_calls.
  destruct (default true animate); reflexivity.
Qed.

Lemma zoom_scale_args (zoomValue : option jsnum) (animate : option bool)
  (duration : option jsnum) (s : Scene x3dom) :
  scale_args (calls (added s (exec (zoom zoomValue animate duration) s)))
  = [uniform (zoom_scalar (default (of_Z 2) zoomValue))].
Proof. apply zoom_calls. Qed.

Lemma zoom_scalar_positive (k : jsnum) :
  jgt k zero = true -> zoom_scalar k = k.
Proof.
  intros H. unfold zoom_scalar. rewrite H. apply jmul_one_l.
Qed.

Lemma zoom_scalar_negative (k : jsnum) :
  jgt zero k = true -> zoom_scalar k = jdiv one (jabs k).
Proof.
  intros H. unfold zoom_scalar.
  replace (jgt k zero) with false; [apply jabs_reciprocal|].
  destruct k as [| | |q]; try reflexivity; try discriminate H.
  unfold jgt, zero, of_Z in *.
  destruct (Qccompare q (Q2Qc (inject_Z 0))) eqn:E1; trivial.
  destruct (Qccompare (Q2Qc (inject_Z 0)) q) eqn:E2; try discriminate H.
  apply Qcgt_alt in E1, E2. exfalso.
  apply (Qclt_not_le _ _ E1). now apply Qclt_le_weak.
Qed.

(** C5: [zoom] scales by [k] itself when [k] is positive and by the
    reciprocal of [|k|] when [k] is negative; [zoomIn] calls [zoom] with
    [|v|] and [zoomOut] with [-|v|]. *)
Theorem zoom_scale_factor (k : jsnum) (v : option jsnum)
  (animate : option bool) (duration : option jsnum) (s : Scene x3dom) :
  (jgt k zero = true ->
   scale_args (calls (added s (exec (zoom (Some k) animate duration) s)))
   = [uniform k])
  /\ (jgt zero k = true ->
      scale_args (calls (added s (exec (zoom (Some k) animate duration) s)))
      = [uniform (jdiv one (jabs k))])
  /\ zoomIn v animate duration s
     = zoom (Some (jabs (default (of_Z 2) v))) (Some (default true animate))
         (Some (default (of_Z 400) duration)) s
  /\ zoomOut v animate duration s
     = zoom (Some (jneg (jabs (default (of_Z 2) v)))) (Some (default true animate))
         (Some (default (of_Z 400) duration)) s.
Proof.
  repeat split.
  - intros H. rewrite zoom_scale_args; cbn [default].
    now rewrite (zoom_scalar_positive k H).
  - intros H. rewrite zoom_scale_args; cbn [default].
    now rewrite (zoom_scalar_negative k H).
  - unfold zoomOut. now rewrite jmul_minus_one.
Qed.


End CameraFacts.

(** ** The full turn about the Y axis *)

Section TimerFacts.

Import Camera.
Local Open Scope string_scope.

Variable x3dom : X3Dom.

Lemma quiet_timely (l : list (Qc * Call x3dom)) : quiet l -> timely l.
Proof.
  unfold quiet, timely. apply Forall_impl. intros [now c]; cbn [snd fst].
  destruct c; intros H; trivial. discriminate H.
Qed.

Lemma ret_quiet (A : Type) (a : A) : quiet_call (ret (S := Scene x3dom) a).
Proof.
  intros s. exists []. split; [now rewrite app_nil_r | constructor].
Qed.

Lemma throw_quiet (A : Type) (e : JsError) :
  quiet_call (throw (S := Scene x3dom) (A := A) e).
Proof.
  intros s. exists []. split; [now rewrite app_nil_r | constructor].
Qed.

Lemma bind_quiet (A B : Type) (m : M (Scene x3dom) A)
  (k : A -> M (Scene x3dom) B) :
  quiet_call m -> (forall a, quiet_call (k a)) -> quiet_call (bind m k).
Proof.
  intros Hm Hk s. destruct (Hm s) as (e1 & E1 & Q1).
  unfold exec, bind in *. destruct (m s) as [[a|e] s1]; cbn [snd] in *.
  - destruct (Hk a s1) as (e2 & E2 & Q2). unfold exec in E2.
    exists (e1 ++ e2)%list. split.
    + now rewrite E2, E1, app_assoc.
    + now apply Forall_app.
  - now exists e1.
Qed.

Lemma query_quiet (A : Type) (c : Call x3dom) (f : World x3dom -> A) :
  is_fired c = false -> quiet_call (query c f).
Proof.
  intros H s. exists [(clock s, c)]. split; [reflexivity|].
  now repeat constructor.
Qed.

Lemma command_quiet (c : Call x3dom) (f : World x3dom -> World x3dom) :
  is_fired c = false -> quiet_call (command c f).
Proof.
  intros H s. exists [(clock s, c)]. split; [reflexivity|].
  now repeat constructor.
Qed.

Lemma setTimeout_quiet (tk : Task) (d : jsnum) :
  quiet_call (setTimeout (x3dom := x3dom) tk d).
Proof.
  intros s. eexists. split; [reflexivity|]. now repeat constructor.
Qed.

Create HintDb quiet_calls.

#[local] Hint Resolve ret_quiet throw_quiet bind_quiet query_quiet
  command_quiet setTimeout_quiet : quiet_calls.

Ltac quiet_step :=
  first
    [ apply bind_quiet; [|intro]
    | apply query_quiet; reflexivity
    | apply command_quiet; reflexivity
    | apply ret_quiet
    | apply throw_quiet
    | apply setTimeout_quiet
    | match goal with
      | |- quiet_call (if ?b then _ else _) => destruct b
      end ].

Lemma getCameraMeta_quiet : quiet_call (_getCameraMeta (x3dom := x3dom)).
Proof. unfold _getCameraMeta. repeat quiet_step. Qed.

Lemma updateViewpoint_quiet (m : Matrix x3dom) (animate : bool) (d : jsnum) :
  quiet_call (_updateViewpoint m animate d).
Proof.
  unfold _updateViewpoint.
  apply bind_quiet; [apply getCameraMeta_quiet | intro].
  repeat quiet_step.
Qed.

Lemma rotate_quiet (axis : string) (angle : jsnum) (animate : option bool)
  (duration : option jsnum) :
  quiet_call (rotate (x3dom := x3dom) axis angle animate duration).
Proof.
  unfold rotate.
  apply bind_quiet; [apply getCameraMeta_quiet | intro].
  apply bind_quiet; [repeat quiet_step | intro].
  apply bind_quiet; [repeat quiet_step | intro].
  apply updateViewpoint_quiet.
Qed.

Lemma zoom_quiet (zoomValue : option jsnum) (animate : option bool)
  (duration : option jsnum) :
  quiet_call (zoom (x3dom := x3dom) zoomValue animate duration).
Proof.
  unfold zoom.
  apply bind_quiet; [apply getCameraMeta_quiet | intro].
  apply bind_quiet; [repeat quiet_step | intro].
  apply bind_quiet; [repeat quiet_step | intro].
  apply updateViewpoint_quiet.
Qed.

Lemma run_op_quiet (o : Op) : quiet_call (run_op (x3dom := x3dom) o).
Proof.
  destruct o; cbn [run_op];
    unfold resetView, rotateRoundY, rotateX, rotateY, zoomIn, zoomOut;
    auto using rotate_quiet, zoom_quiet with quiet_calls.
Qed.

Lemma run_task_quiet (tk : Task) : quiet_call (run_task (x3dom := x3dom) tk).
Proof. destruct tk; apply rotate_quiet. Qed.

(** Whatever the event loop does, a timer that fires is due when it does. *)
Lemma steps_timely (s s' : Scene x3dom) :
  steps s s' -> exists ext, log s' = (log s ++ ext)%list /\ timely ext.
Proof.
  induction 1 as [s | s s1 s2 _ (ext & E & T) Hstep].
  - exists []. split; [now rewrite app_nil_r | constructor].
  - destruct Hstep as [s1 dt _ | s1 before t after _ Hdue | s1 o].
    + exists ext. now split.
    + destruct (run_task_quiet (task t)
                  (record (TimerFired t)
                     {| world := world s1; log := log s1; clock := clock s1;
                        timers := (before ++ after)%list |}))
        as (e2 & E2 & Q2).
      exists (ext ++ (clock s1, TimerFired t) :: e2)%list. split.
      * unfold fire. rewrite E2. cbn [record log clock]. rewrite E.
        now rewrite <- !app_assoc.
      * apply Forall_app. split; trivial.
        constructor; [exact Hdue | now apply quiet_timely].
    + destruct (run_op_quiet o s1) as (e2 & E2 & Q2).
      exists (ext ++ e2)%list. split.
      * now rewrite E2, E, app_assoc.
      * apply Forall_app. split; trivial. now apply quiet_timely.
Qed.


(** The deferred call can be made: when half the duration is a finite,
    non-negative number of milliseconds, the timer is due once that time has
    passed, and its turn runs the second [rotate]. *)
Lemma rotateRoundY_can_fire (duration : option jsnum) (s : Scene x3dom)
  (q : Qc) :
  jdiv (default (of_Z 4000) duration) (of_Z 2) = Fin q ->
  (0 <= q)%Qc ->
  let t := {| registered := clock s;
              delay := Fin q;
              task := TaskRotate Y_AXIS (of_Z 180) true (Fin q) |} in
  let s2 := exec (rotateRoundY duration) s in
  let s3 := fire (timers s) t [] (pass q s2) in
  steps s2 s3 /\ In ((clock s + q)%Qc, TimerFired t) (added s2 s3).
Proof.
  intros Hhalf Hq t s2 s3.
  assert (Ht : timers (pass q s2) = (timers s ++ t :: [])%list).
  { unfold s2, exec, rotateRoundY. rewrite Hhalf. reflexivity. }
  assert (Hc : clock (pass q s2) = (clock s + q)%Qc) by reflexivity.
  split.
  - eapply steps_cons; [eapply steps_cons; [apply steps_refl|]|].
    + apply (step_pass s2 Hq).
    + apply (step_fire _ _ _ _ Ht).
      rewrite Hc. unfold due, t; cbn [delay registered].
      replace (clock s + q - clock s)%Qc with q by ring.
      unfold jle. now rewrite (proj1 (Qceq_alt q q) eq_refl).
  - destruct (run_task_quiet (task t)
                (record (TimerFired t)
                   {| world := world (pass q s2); log := log (pass q s2);
                      clock := clock (pass q s2);
                      timers := (timers s ++ [])%list |}))
      as (e2 & E2 & _).
    rewrite (added_app s2 s3 (((clock s + q)%Qc, TimerFired t) :: e2)).
    + now left.
    + unfold s3, fire. rewrite E2. cbn [record log clock pass].
      now rewrite <- app_assoc.
Qed.

End TimerFacts.

(** ** The operations on the symbolic engine *)

Section Runs.

Import Camera.
Local Open Scope string_scope.

Lemma rotate_unsupported_axis_witness :
  fst (rotate "z" (of_Z 90) None None start)
  = Throw (RangeError ("Axis " ++ dquote ++ "z" ++ dquote ++ " is not supported!"))
  /\ calls (added start (exec (rotate "z" (of_Z 90) None None) start))
     = [CallViewpoint; CallViewMatrix]
  /\ forallb (@no_matrix_computation symbolic)
       (calls (added start (exec (rotate "z" (of_Z 90) None None) start)))
     = true
  /\ world (exec (rotate "z" (of_Z 90) None None) start) = world start.
Proof.
  apply (@rotate_unsupported_axis symbolic "z" (of_Z 90) None None start);
    intros H; discriminate H.
Defined.

Lemma zoom_scale_factor_witness :
  scale_args (calls (added start (exec (zoom (Some (of_Z 2)) None None) start)))
  = [uniform (of_Z 2)]
  /\ scale_args
       (calls (added start (exec (zoom (Some (of_Z (-2))) None None) start)))
     = [uniform (jdiv one (jabs (of_Z (-2))))].
Proof.
  split.
  - apply (proj1 (zoom_scale_factor (of_Z 2) None None None start)).
    reflexivity.
  - apply (proj1 (proj2 (zoom_scale_factor (of_Z (-2)) None None None start))).
    reflexivity.
Defined.


End Runs.

(** * Further properties *)

(** ** Colour conversion: errors and edges *)

Section ColourEdges.

Local Open Scope string_scope.

Variable fractionToString : Qc -> string.

Lemma hexToRgbLine_channels (hex : string) :
  hexToRgbLine fractionToString hex
  = match hexChannels hex with
    | None => Throw (TypeError "Cannot read properties of null")
    | Some cs => Ok (join " " (map (numToString fractionToString) cs))
    end.
Proof.
  unfold hexToRgbLine, hexChannels. now destruct (match_all hex).
Qed.

Lemma match_pairs_nil (s : string) :
  match_pairs s = [] <-> only_line_terminators s = true.
Proof.
  induction s as [|c rest IH]; cbn [match_pairs only_line_terminators].
  - now split.
  - destruct (is_line_terminator c); cbn [andb]; trivial.
    destruct rest as [|d rest']; [now split|].
    destruct (is_line_terminator d); now split.
Qed.

(** [hexToRgbLine] throws on the strings without a character that [.]
    matches, and on those only. *)
Lemma hexToRgbLine_throws (hex : string) :
  is_throw (hexToRgbLine fractionToString hex) = only_line_terminators hex
  /\ (only_line_terminators hex = true ->
      hexToRgbLine fractionToString hex
      = Throw (TypeError "Cannot read properties of null")).
Proof.
  unfold hexToRgbLine, match_all.
  destruct (match_pairs hex) as [|p parts] eqn:E.
  - split; [symmetry; now apply match_pairs_nil | reflexivity].
  - destruct (only_line_terminators hex) eqn:O; [|split; [reflexivity | discriminate]].
    apply match_pairs_nil in O. rewrite O in E. discriminate E.
Qed.

(** X1: [hexToRgbLine] throws exactly on the strings in which every
    character is a line terminator, the empty string among them; on any other
    string it returns. *)
Theorem hexToRgbLine_throws_iff (hex : string) :
  is_throw (hexToRgbLine fractionToString hex) = only_line_terminators hex
  /\ is_throw (hexToRgbLine fractionToString "") = true.
Proof.
  split; [apply hexToRgbLine_throws | reflexivity].
Qed.

Lemma match_pairs_pair (c d : ascii) (rest : string) :
  is_line_terminator c = false -> is_line_terminator d = false ->
  match_pairs (String c (String d rest))
  = String c (String d "") :: match_pairs rest.
Proof.
  intros Hc Hd. cbn [match_pairs]. now rewrite Hc, Hd.
Qed.

(** X2: only the first three pairs count: after six characters that are not
    line terminators, whatever follows changes nothing. *)
Theorem hexToRgbLine_first_six (c1 c2 c3 c4 c5 c6 : ascii) (rest : string) :
  is_line_terminator c1 = false -> is_line_terminator c2 = false ->
  is_line_terminator c3 = false -> is_line_terminator c4 = false ->
  is_line_terminator c5 = false -> is_line_terminator c6 = false ->
  hexToRgbLine fractionToString
    (String c1 (String c2 (String c3 (String c4 (String c5 (String c6 rest))))))
  = hexToRgbLine fractionToString
      (String c1 (String c2 (String c3 (String c4 (String c5 (String c6 "")))))).
Proof.
  intros H1 H2 H3 H4 H5 H6.
  unfold hexToRgbLine, match_all.
  rewrite !match_pairs_pair by assumption.
  reflexivity.
Qed.

Lemma hex_digit_range (c : ascii) (v : Z) :
  hex_digit c = Some v -> (0 <= v <= 15)%Z.
Proof.
  destruct c as [[] [] [] [] [] [] [] []]; vm_compute; intros H;
    try discriminate H; injection H as <-; split; discriminate.
Qed.

Lemma byte_in_unit_range (n : Z) :
  (0 <= n <= 255)%Z -> in_unit_range (jdiv (of_Z n) (of_Z 255)) = true.
Proof.
  intros Hn. unfold in_unit_range, jdiv, of_Z.
  change (sgn (Q2Qc (inject_Z 255))) with Gt. cbv iota.
  unfold jle, zero, one, of_Z.
  assert (L : (Q2Qc (inject_Z 0) <= Q2Qc (inject_Z n) / Q2Qc (inject_Z 255))%Qc
              /\ (Q2Qc (inject_Z n) / Q2Qc (inject_Z 255) <= Q2Qc (inject_Z 1))%Qc).
  { unfold Qcle, Qcdiv, Qcmult, Qcinv, Q2Qc; cbn [this].
    rewrite !Qred_correct.
    unfold Qle, Qmult, Qinv, inject_Z; cbn [Qnum Qden]. cbn. lia. }
  destruct L as [L0 L1].
  apply (proj1 (Qcle_alt _ _)) in L0. apply (proj1 (Qcle_alt _ _)) in L1.
  destruct (Qccompare (Q2Qc (inject_Z 0))
              (Q2Qc (inject_Z n) / Q2Qc (inject_Z 255))) eqn:E0;
    try congruence;
    destruct (Qccompare (Q2Qc (inject_Z n) / Q2Qc (inject_Z 255))
                (Q2Qc (inject_Z 1))) eqn:E1;
    try congruence; reflexivity.
Qed.

(** X3: for six hexadecimal digits, in either case, the three channels are
    the bytes the pairs spell divided by 255, and each lies between 0 and
    1. *)
Theorem hexChannels_six_digits
  (c1 c2 c3 c4 c5 c6 : ascii) (v1 v2 v3 v4 v5 v6 : Z) :
  hex_digit c1 = Some v1 -> hex_digit c2 = Some v2 ->
  hex_digit c3 = Some v3 -> hex_digit c4 = Some v4 ->
  hex_digit c5 = Some v5 -> hex_digit c6 = Some v6 ->
  let cs := [jdiv (of_Z (16 * v1 + v2)) (of_Z 255);
             jdiv (of_Z (16 * v3 + v4)) (of_Z 255);
             jdiv (of_Z (16 * v5 + v6)) (of_Z 255)] in
  hexChannels
    (String c1 (String c2 (String c3 (String c4 (String c5 (String c6 ""))))))
  = Some cs
  /\ forallb in_unit_range cs = true.
Proof.
  intros H1 H2 H3 H4 H5 H6 cs. split.
  - unfold hexChannels, match_all.
    rewrite match_pairs_hex6 by (eapply hex_digit_plain; eassumption).
    unfold parseInt16_at; cbn [nth_error].
    now rewrite (@parseInt16_pair _ _ _ _ H1 H2), (@parseInt16_pair _ _ _ _ H3 H4),
      (@parseInt16_pair _ _ _ _ H5 H6).
  - apply hex_digit_range in H1, H2, H3, H4, H5, H6.
    unfold cs; cbn [forallb].
    rewrite !byte_in_unit_range by lia. reflexivity.
Qed.

Lemma match_pairs_length (n : nat) (s : string) :
  String.length s <= n -> 2 * List.length (match_pairs s) <= String.length s + 1.
Proof.
  revert s; induction n as [|n IH]; intros s Hs.
  - destruct s; [cbn; lia | cbn in Hs; lia].
  - destruct s as [|c rest]; [cbn; lia|].
    cbn [match_pairs String.length] in *.
    destruct (is_line_terminator c).
    + specialize (IH rest). lia.
    + destruct rest as [|d rest']; [cbn; lia|].
      cbn [String.length] in *.
      specialize (IH rest').
      destruct (is_line_terminator d); cbn [List.length]; lia.
Qed.

Lemma missing_channel (parts : list string) (i : nat) :
  List.length parts <= i ->
  jdiv (parseInt16_at parts i) (of_Z 255) = NaN.
Proof.
  intros H. unfold parseInt16_at.
  now rewrite (proj2 (nth_error_None parts i) H).
Qed.

(** X4: a string of at most four characters has no third pair, so its blue
    channel is [NaN]; one of at most two characters has no second pair
    either.  A three-digit shorthand is not expanded. *)
Theorem hexChannels_short (hex : string) :
  String.length hex <= 4 ->
  hexChannels hex = None
  \/ (exists r g, hexChannels hex = Some [r; g; NaN])
     /\ (String.length hex <= 2 -> exists r, hexChannels hex = Some [r; NaN; NaN]).
Proof.
  intros H4. unfold hexChannels, match_all.
  pose proof (@match_pairs_length _ hex (le_n (String.length hex))) as L.
  destruct (match_pairs hex) as [|p parts] eqn:E; [now left|right].
  rewrite <- E in *. split.
  - rewrite (@missing_channel (match_pairs hex) 2) by lia.
    do 2 eexists. reflexivity.
  - intros H2.
    rewrite (@missing_channel (match_pairs hex) 2),
      (@missing_channel (match_pairs hex) 1) by lia.
    eexists. reflexivity.
Qed.

Lemma parseInt16_not_a_number (c : ascii) (rest : string) :
  hex_digit c = None -> is_white_space c = false ->
  (code c =? 45)%nat = false -> (code c =? 43)%nat = false ->
  parseInt16 (String c rest) = NaN.
Proof.
  intros Hd Hw Hm Hp.
  unfold parseInt16. cbn [skip_white_space]. rewrite Hw.
  unfold strip_sign. rewrite Hm, Hp.
  assert (H0 : (code c =? 48)%nat = false).
  { destruct (code c =? 48)%nat eqn:E; trivial.
    apply Nat.eqb_eq in E. unfold hex_digit in Hd. rewrite E in Hd.
    discriminate Hd. }
  unfold strip_0x. destruct rest as [|d rest'];
    [|rewrite H0; cbn [andb]]; cbn [hex_prefix]; now rewrite Hd.
Qed.

Lemma white_space_line_terminator (c : ascii) :
  is_white_space c = false -> is_line_terminator c = false.
Proof.
  destruct c as [[] [] [] [] [] [] [] []]; vm_compute; intros H;
    try discriminate H; reflexivity.
Qed.

(** X5: when the string starts with a character that is neither a
    hexadecimal digit, nor white space, nor a sign, such as [#], the red
    channel is [NaN]: nothing is skipped and nothing is rejected. *)
Theorem hexChannels_bad_lead (c : ascii) (rest : string) :
  hex_digit c = None -> is_white_space c = false ->
  (code c =? 45)%nat = false -> (code c =? 43)%nat = false ->
  exists g b, hexChannels (String c rest) = Some [NaN; g; b].
Proof.
  intros Hd Hw Hm Hp.
  pose proof (white_space_line_terminator c Hw) as Hl.
  unfold hexChannels, match_all. cbn [match_pairs]. rewrite Hl.
  destruct rest as [|d rest'].
  - do 2 eexists. unfold parseInt16_at at 1; cbn [nth_error].
    now rewrite parseInt16_not_a_number.
  - destruct (is_line_terminator d); do 2 eexists;
      unfold parseInt16_at at 1; cbn [nth_error];
      now rewrite parseInt16_not_a_number.
Qed.

End ColourEdges.

(** ** Attributes *)

Section AttributeFacts.

Import Dom.
Local Open Scope string_scope.

Variable fractionToString : Qc -> string.

Lemma get_set_same (name value : string) (attrs : Attrs) :
  getAttribute name (setAttribute name value attrs) = Some value.
Proof.
  induction attrs as [|[n v] rest IH]; cbn [setAttribute getAttribute].
  - now rewrite String.eqb_refl.
  - destruct (String.eqb n name) eqn:E; cbn [getAttribute]; now rewrite E.
Qed.

Lemma get_set_other (name other value : string) (attrs : Attrs) :
  other <> name ->
  getAttribute other (setAttribute name value attrs) = getAttribute other attrs.
Proof.
  intros Hne.
  induction attrs as [|[n v] rest IH]; cbn [setAttribute getAttribute].
  - destruct (String.eqb_spec name other); [congruence | reflexivity].
  - destruct (String.eqb_spec n name) as [->|Hn]; cbn [getAttribute].
    + destruct (String.eqb_spec name other); [congruence | reflexivity].
    + now rewrite IH.
Qed.

Lemma set_set (name v1 v2 : string) (attrs : Attrs) :
  setAttribute name v2 (setAttribute name v1 attrs) = setAttribute name v2 attrs.
Proof.
  induction attrs as [|[n v] rest IH]; cbn [setAttribute].
  - now rewrite String.eqb_refl.
  - destruct (String.eqb n name) eqn:E; cbn [setAttribute]; rewrite E;
      [reflexivity | now rewrite IH].
Qed.

Lemma set_names (name value : string) (attrs : Attrs) :
  map fst (setAttribute name value attrs)
  = match getAttribute name attrs with
    | Some _ => map fst attrs
    | None => (map fst attrs ++ [name])%list
    end.
Proof.
  induction attrs as [|[n v] rest IH]; cbn [setAttribute getAttribute map fst app];
    trivial.
  destruct (String.eqb n name); cbn [map fst]; trivial.
  rewrite IH. now destruct (getAttribute name rest).
Qed.

(** X6: after [toggleElement] (and so after [hideElement] and
    [showElement]) the [render] attribute reads as the state last written,
    every other attribute reads as before, and a second call overwrites the
    first without adding an attribute: showing a hidden element gives the
    element that showing it at once gives. *)
Theorem toggleElement_last_write (el : Attrs) (a b : bool) (other : string) :
  getAttribute "render" (toggleElement el b) = Some (bool_to_string b)
  /\ (other <> "render" ->
      getAttribute other (toggleElement el b) = getAttribute other el)
  /\ toggleElement (toggleElement el a) b = toggleElement el b
  /\ showElement (hideElement el) = showElement el
  /\ hideElement (showElement el) = hideElement el.
Proof.
  unfold showElement, hideElement, toggleElement.
  repeat split; try apply set_set.
  - apply get_set_same.
  - intros H. now apply get_set_other.
Qed.

(** X7: [setSkyColorRGB] throws exactly when the colour has no character
    that [.] matches or the document has no background element, and then
    the document is as before; otherwise it sets [skycolor] on the
    background element to the converted colour, leaves the other attributes
    of that element alone, and adds no attribute when [skycolor] was
    there. *)
Theorem setSkyColorRGB_outcome (color other : string) (d : Document) :
  is_throw (fst (setSkyColorRGB fractionToString color d))
  = only_line_terminators color
    || match background d with None => true | Some _ => false end
  /\ (is_throw (fst (setSkyColorRGB fractionToString color d)) = true ->
      exec (setSkyColorRGB fractionToString color) d = d)
  /\ (forall rgb attrs,
        hexToRgbLine fractionToString color = Ok rgb ->
        background d = Some attrs ->
        setSkyColorRGB fractionToString color d
        = (Ok tt, {| background := Some (setAttribute "skycolor" rgb attrs) |})
        /\ getAttribute "skycolor" (setAttribute "skycolor" rgb attrs) = Some rgb
        /\ (other <> "skycolor" ->
            getAttribute other (setAttribute "skycolor" rgb attrs)
            = getAttribute other attrs)
        /\ (getAttribute "skycolor" attrs <> None ->
            map fst (setAttribute "skycolor" rgb attrs) = map fst attrs)).
Proof.
  pose proof (proj1 (hexToRgbLine_throws fractionToString color)) as T.
  unfold setSkyColorRGB, exec, bind, lift.
  destruct (hexToRgbLine fractionToString color) as [rgb|e];
    cbn [is_throw] in T; rewrite <- T.
  - unfold set_skycolor, ret, throw.
    destruct d as [[attrs|]]; cbn [background fst snd is_throw orb].
    + split; [reflexivity|]. split; [discriminate|].
      intros rgb' attrs' E1 E2. injection E1 as <-. injection E2 as <-.
      split; [reflexivity|]. split; [apply get_set_same|].
      split; [intros Hne; now apply get_set_other|].
      intros Hs. rewrite set_names.
      destruct (getAttribute "skycolor" attrs); [reflexivity | contradiction].
    + split; [reflexivity|]. split; [reflexivity|].
      intros rgb' attrs' _ E2. discriminate E2.
  - cbn [fst snd is_throw orb]. split; [reflexivity|]. split; [reflexivity|].
    intros rgb' attrs' E1. discriminate E1.
Qed.

End AttributeFacts.

(** ** Shapes: errors, cycles and repeated highlights *)

Section ShapeEdges.

Import Shapes ShapeCycles.
Local Open Scope string_scope.

Variable fractionToString : Qc -> string.

Lemma highlightShape_converted (color : option string) (rgb : string)
  (el : Shape) (v : JsVal) :
  hexToRgbLine fractionToString (default "FF0000" color) = Ok rgb ->
  appearance el = Some v ->
  highlightShape fractionToString color el
  = (Ok tt, {| appearance := Some (VStr (highlight_markup rgb));
               origAppearance :=
                 if truthy (origAppearance el) then origAppearance el else v |}).
Proof.
  intros Hc Ha. unfold highlightShape, bind, lift. rewrite Hc.
  unfold get_origAppearance, ret.
  destruct (truthy (origAppearance el)); cbn [negb];
    unfold get_outerHTML, set_origAppearance, set_outerHTML, ret; rewrite Ha;
    cbn [appearance origAppearance]; now rewrite ?Ha.
Qed.

(** X8: [highlightShape] throws exactly when the colour has no character
    that [.] matches or the element has no appearance sub-element, and
    [restoreShapeColor] exactly when there is no appearance sub-element; a
    call that throws leaves the element, its stash included, as it was. *)
Theorem shape_calls_throw_iff (color : option string) (el : Shape) :
  is_throw (fst (highlightShape fractionToString color el))
  = only_line_terminators (default "FF0000" color)
    || match appearance el with None => true | Some _ => false end
  /\ (is_throw (fst (highlightShape fractionToString color el)) = true ->
      exec (highlightShape fractionToString color) el = el)
  /\ is_throw (fst (restoreShapeColor el))
     = match appearance el with None => true | Some _ => false end
  /\ (is_throw (fst (restoreShapeColor el)) = true ->
      exec restoreShapeColor el = el).
Proof.
  pose proof (proj1 (hexToRgbLine_throws fractionToString
                       (default "FF0000" color))) as T.
  split; [|split; [|split]].
  - destruct (hexToRgbLine fractionToString (default "FF0000" color))
      as [rgb|e] eqn:Hc; cbn [is_throw] in T; rewrite <- T; cbn [orb].
    + destruct (appearance el) as [v|] eqn:Ha.
      * now rewrite (highlightShape_converted color el Hc Ha).
      * unfold highlightShape, bind, lift. rewrite Hc.
        unfold get_origAppearance, get_outerHTML, set_outerHTML, null_deref,
          throw, ret.
        destruct (truthy (origAppearance el)); cbn [negb]; now rewrite Ha.
    + unfold highlightShape, bind, lift. now rewrite Hc.
  - unfold exec.
    destruct (hexToRgbLine fractionToString (default "FF0000" color))
      as [rgb|e] eqn:Hc.
    + destruct (appearance el) as [v|] eqn:Ha.
      * rewrite (highlightShape_converted color el Hc Ha). discriminate.
      * intros _. unfold highlightShape, bind, lift. rewrite Hc.
        unfold get_origAppearance, get_outerHTML, set_outerHTML, null_deref,
          throw, ret.
        destruct (truthy (origAppearance el)); cbn [negb]; now rewrite Ha.
    + intros _. unfold highlightShape, bind, lift. now rewrite Hc.
  - unfold restoreShapeColor, bind, get_origAppearance, set_outerHTML,
      null_deref, throw, ret.
    now destruct (appearance el).
  - unfold exec, restoreShapeColor, bind, get_origAppearance, set_outerHTML,
      null_deref, throw, ret.
    destruct (appearance el); [discriminate | reflexivity].
Qed.

Lemma highlight_restore_once (el : Shape) (markup : string)
  (color : option string) :
  appearance el = Some (VStr markup) ->
  truthy (VStr markup) = true ->
  truthy (origAppearance el) = false ->
  only_line_terminators (default "FF0000" color) = false ->
  highlight_restore fractionToString el color
  = {| appearance := Some (VStr markup); origAppearance := VNull |}.
Proof.
  intros Ha Hm Hs Hc.
  destruct (hexToRgbLine fractionToString (default "FF0000" color))
    as [rgb|e] eqn:E.
  - unfold highlight_restore, exec.
    rewrite (highlightShape_converted color el E Ha), Hs. cbn [snd].
    now erewrite restoreShapeColor_eq by reflexivity.
  - pose proof (proj1 (hexToRgbLine_throws fractionToString
                         (default "FF0000" color))) as T.
    rewrite E, Hc in T. discriminate T.
Qed.



End ShapeEdges.

(** ** The loader: listeners, stray events and order *)

Section LoaderEdges.

Import Loader.

Lemma delivered_filter (n : nat) (evs : list nat) :
  delivered n (filter (fun el => el <? n) evs) = delivered n evs.
Proof.
  unfold delivered. f_equal.
  induction evs as [|el evs IH]; cbn [filter]; trivial.
  destruct (el <? n) eqn:E; cbn [filter]; rewrite ?E, IH; reflexivity.
Qed.

Lemma delivered_perm (n : nat) (evs evs' : list nat) :
  Permutation evs evs' -> delivered n evs = delivered n evs'.
Proof.
  intros P. unfold delivered.
  induction P as [|x l l' _ IH|x y l|l l' l'' _ IH1 _ IH2]; cbn [filter]; trivial.
  - destruct (x <? n); cbn [List.length]; now rewrite IH.
  - destruct (x <? n), (y <? n); reflexivity.
  - now rewrite IH1.
Qed.

Lemma filter_none_below_zero (evs : list nat) :
  List.length (filter (fun el => el <? 0) evs) = 0.
Proof.
  induction evs as [|el evs IH]; trivial.
Qed.

(** X11: the listeners of the constructor are never removed, so the state
    of the helper depends only on how many ['load'] events the inline
    elements have delivered: events on other elements are ignored, and the
    order in which the elements load does not matter. *)
Theorem loader_counts_events (n : nat) (evs evs' : list nat) :
  listeners (run n evs) = listeners (construct n)
  /\ run n evs = run n (filter (fun el => el <? n) evs)
  /\ (Permutation evs evs' -> run n evs = run n evs').
Proof.
  split; [|split].
  - now rewrite run_after, construct_after.
  - now rewrite !run_after, delivered_filter.
  - intros P. now rewrite !run_after, (delivered_perm n P).
Qed.

(** X12: [resolve] is called once by the constructor when there is no
    inline element, and otherwise once for the [n]-th ['load'] event and once
    more for each one after it, while the promise is settled at most
    once. *)
Theorem resolve_called_per_late_event (n : nat) (evs : list nat) :
  resolveCalls (run n evs)
  = (if n =? 0 then 1 else S (delivered n evs) - n)
  /\ settlements (inlineLoaded (run n evs)) <= 1
  /\ (0 < n -> n <= delivered n evs ->
      settlements (inlineLoaded (run n evs)) = 1
      /\ resolveCalls (run n evs) = S (delivered n evs - n)).
Proof.
  rewrite run_after. unfold after; cbn [resolveCalls inlineLoaded].
  split; [|split].
  - destruct (Nat.eqb_spec n 0) as [->|Hn]; trivial.
    unfold delivered; cbn. now rewrite filter_none_below_zero.
  - destruct ((n =? 0) || (n <=? delivered n evs)); cbn [settlements]; lia.
  - intros Hn Hd.
    destruct (Nat.eqb_spec n 0); [lia|]. cbn [orb].
    destruct (Nat.leb_spec n (delivered n evs)); [|lia].
    cbn [settlements]. split; lia.
Qed.

End LoaderEdges.

(** ** Listeners on inline scenes wait for the signal *)

Section InlineFacts.

Import Loader Inline.
Local Open Scope string_scope.

Variable Doc : Type.
Variable querySelector : Doc -> string -> option nat.
Variable querySelectorAll : Doc -> nat -> string -> list nat.

Lemma run_reaction_frame (p : Page Doc) (r : Registration) :
  helper ((run_reaction querySelector querySelectorAll) p r) = helper p
  /\ reactions ((run_reaction querySelector querySelectorAll) p r) = reactions p
  /\ ran ((run_reaction querySelector querySelectorAll) p r) = (ran p ++ [r])%list.
Proof.
  unfold run_reaction, attach, ret, throw;
    cbn [doc helper reactions ran].
  destruct (querySelector (doc p) (reg_inline r)); now cbn.
Qed.

Lemma run_reactions_frame (rs : list Registration) (p : Page Doc) :
  helper (fold_left (run_reaction querySelector querySelectorAll) rs p) = helper p
  /\ reactions (fold_left (run_reaction querySelector querySelectorAll) rs p) = reactions p
  /\ ran (fold_left (run_reaction querySelector querySelectorAll) rs p) = (ran p ++ rs)%list.
Proof.
  revert p; induction rs as [|r rs IH]; intros p; cbn [fold_left].
  - now rewrite app_nil_r.
  - destruct (run_reaction_frame p r) as (H1 & H2 & H3).
    destruct (IH ((run_reaction querySelector querySelectorAll) p r)) as (I1 & I2 & I3).
    rewrite I1, I2, I3, H1, H2, H3, <- app_assoc. now repeat split.
Qed.

Lemma drain_fulfilled (p : Page Doc) :
  fulfilled (helper p) = true ->
  helper ((drain querySelector querySelectorAll) p) = helper p
  /\ reactions ((drain querySelector querySelectorAll) p) = []
  /\ ran ((drain querySelector querySelectorAll) p) = (ran p ++ reactions p)%list.
Proof.
  intros F. unfold drain. rewrite F.
  exact (run_reactions_frame (reactions p)
           (mkPage (helper p) (doc p) [] (ran p) (attached p) (rejected p))).
Qed.

Lemma drain_pending (p : Page Doc) :
  fulfilled (helper p) = false -> (drain querySelector querySelectorAll) p = p.
Proof.
  intros F. unfold drain. now rewrite F.
Qed.

Lemma fulfilled_stays (n : nat) (evs : list nat) (el : nat) :
  fulfilled (run n evs) = true -> fulfilled (run n (evs ++ [el])) = true.
Proof.
  rewrite !run_after, !fulfilled_after, delivered_app.
  intros H. apply orb_true_iff in H. apply orb_true_iff.
  destruct H as [H|H]; [now left | right].
  apply Nat.leb_le in H. apply Nat.leb_le. lia.
Qed.

Lemma run_snoc (n : nat) (evs : list nat) (el : nat) :
  run n (evs ++ [el]) = dispatchLoad el (run n evs).
Proof.
  unfold run. now rewrite fold_left_app.
Qed.

(** The page after some turns: the helper has seen the loads, and the
    reactions have all run, in order, once the promise is fulfilled, and
    none of them before. *)
Lemma page_invariant (n : nat) (d : Doc) (ts : list (Turn Doc)) :
  let p := (run_turns querySelector querySelectorAll) n d ts in
  helper p = run n (loads ts)
  /\ (fulfilled (helper p) = false ->
      reactions p = registrations ts /\ ran p = []
      /\ attached p = [] /\ rejected p = 0)
  /\ (fulfilled (helper p) = true ->
      reactions p = [] /\ ran p = registrations ts).
Proof.
  induction ts as [|t ts IH] using rev_ind; cbn zeta.
  - unfold run_turns, open_page; cbn [fold_left loads registrations flat_map].
    destruct (fulfilled (construct n)) eqn:F.
    + destruct (drain_fulfilled (mkPage (construct n) d [] [] [] 0) F)
        as (H1 & H2 & H3).
      cbn [helper reactions ran] in *. rewrite H1. unfold run; cbn [fold_left].
      split; [reflexivity|]. split; [congruence|]. now intros _.
    + rewrite drain_pending by exact F. cbn [helper reactions ran attached rejected].
      unfold run; cbn [fold_left]. split; [reflexivity|].
      split; [now intros _ | congruence].
  - cbn zeta in IH. destruct IH as (Hh & Hpend & Hful).
    unfold run_turns in *. rewrite fold_left_app. cbn [fold_left].
    unfold loads, registrations in *.
    rewrite !flat_map_app. cbn [flat_map]. rewrite !app_nil_r.
    fold (loads ts) in *. fold (registrations ts) in *.
    set (p := fold_left (turn querySelector querySelectorAll) ts
                (open_page querySelector querySelectorAll n d)) in *.
    unfold turn.
    destruct (fulfilled (helper p)) eqn:F.
    + destruct (Hful eq_refl) as (Hr & Hran). clear Hpend Hful.
      destruct t as [el | ev cb isel tsel | d'].
      * assert (F' : fulfilled (dispatchLoad el (helper p)) = true).
        { rewrite Hh, <- run_snoc. apply fulfilled_stays. now rewrite <- Hh. }
        match goal with |- context [drain _ _ ?q] =>
          destruct (drain_fulfilled q F') as (H1 & H2 & H3) end.
        cbn [helper reactions ran] in *.
        rewrite H1, H2, H3, Hr, Hran, Hh, run_snoc, !app_nil_r.
        split; [reflexivity|]. split; [congruence|]. now intros _.
      * match goal with |- context [drain _ _ ?q] =>
          destruct (drain_fulfilled q F) as (H1 & H2 & H3) end.
        unfold addInlineListener in *. cbn [helper reactions ran] in *.
        rewrite H1, H2, H3, Hr, Hran, F, ?app_nil_r. cbn [app].
        split; [assumption|]. split; [discriminate|]. now intros _.
      * match goal with |- context [drain _ _ ?q] =>
          destruct (drain_fulfilled q F) as (H1 & H2 & H3) end.
        cbn [helper reactions ran] in *.
        rewrite H1, H2, H3, Hr, Hran, F, ?app_nil_r.
        split; [assumption|]. split; [discriminate|]. now intros _.
    + destruct (Hpend eq_refl) as (Hr & Hran & Ha & Hj). clear Hpend Hful.
      destruct t as [el | ev cb isel tsel | d'].
      * destruct (fulfilled (dispatchLoad el (helper p))) eqn:F'.
        -- match goal with |- context [drain _ _ ?q] =>
             destruct (drain_fulfilled q F') as (H1 & H2 & H3) end.
           cbn [helper reactions ran] in *.
           rewrite H1, H2, H3, Hr, Hran, Hh, run_snoc, !app_nil_r.
           rewrite Hh in F'. rewrite F'. cbn [app].
           split; [reflexivity|]. split; [discriminate|]. now intros _.
        -- rewrite drain_pending by exact F'.
           cbn [helper reactions ran attached rejected].
           rewrite Hr, Hran, Ha, Hj, Hh, run_snoc, !app_nil_r.
           rewrite Hh in F'. rewrite F'.
           split; [reflexivity|]. split; [now intros _ | discriminate].
      * rewrite drain_pending by exact F.
        unfold addInlineListener. cbn [helper reactions ran attached rejected].
        rewrite Hr, Hran, Ha, Hj, F, !app_nil_r.
        split; [assumption|]. split; [now intros _ | discriminate].
      * rewrite drain_pending by exact F.
        cbn [helper reactions ran attached rejected].
        rewrite Hr, Hran, Ha, Hj, F, !app_nil_r.
        split; [assumption|]. split; [now intros _ | discriminate].
Qed.

(** X13: the reactions of [addInlineListener] wait for the signal: while
    the promise is pending no listener has been attached and every
    registration is still waiting; once it is fulfilled every registration
    has run, once and in the order of the calls, whether it was made before
    or after the resolution; so a listener is attached only when there is no
    inline element or all [n] loads have been counted. *)
Theorem addInlineListener_waits (n : nat) (d : Doc) (ts : list (Turn Doc)) :
  let p := run_turns querySelector querySelectorAll n d ts in
  (fulfilled (run n (loads ts)) = false ->
   attached p = [] /\ ran p = [] /\ reactions p = registrations ts)
  /\ (fulfilled (run n (loads ts)) = true ->
      reactions p = [] /\ ran p = registrations ts)
  /\ (attached p <> [] -> n = 0 \/ n <= delivered n (loads ts)).
Proof.
  intros p. destruct (page_invariant n d ts) as (Hh & Hpend & Hful).
  fold p in Hh, Hpend, Hful. rewrite Hh in Hpend, Hful.
  split; [|split].
  - intros F. destruct (Hpend F) as (H1 & H2 & H3 & _). now repeat split.
  - exact Hful.
  - intros Ha. destruct (fulfilled (run n (loads ts))) eqn:F.
    + rewrite run_after, fulfilled_after in F.
      apply orb_true_iff in F. destruct F as [F|F].
      * left. now apply Nat.eqb_eq.
      * right. now apply Nat.leb_le.
    + destruct (Hpend eq_refl) as (_ & _ & H3 & _). contradiction.
Qed.

End InlineFacts.

(** ** Camera operations: exceptions, zoom factors, angles *)

Section CameraEdges.

Import Camera Throwing.
Local Open Scope string_scope.

Variable x3dom : X3Dom.

Lemma updateViewpoint_returns (m : Matrix x3dom) (animate : bool)
  (duration : jsnum) (s : Scene x3dom) :
  fst (_updateViewpoint m animate duration s) = Ok tt.
Proof. now destruct animate. Qed.

Lemma zoom_returns (z : option jsnum) (a : option bool) (d : option jsnum)
  (s : Scene x3dom) :
  fst (zoom z a d s) = Ok tt.
Proof. apply zoom_calls. Qed.

Lemma rotate_returns_iff (axis : string) (angle : jsnum) (a : option bool)
  (d : option jsnum) (s : Scene x3dom) :
  is_throw (fst (rotate axis angle a d s))
  = negb (String.eqb axis X_AXIS || String.eqb axis Y_AXIS).
Proof.
  unfold rotate, bind. rewrite getCameraMeta_eq.
  destruct (String.eqb axis X_AXIS); cbn [orb negb].
  - cbn [query ret]. now rewrite updateViewpoint_returns.
  - destruct (String.eqb axis Y_AXIS); cbn [orb negb]; trivial.
    cbn [query ret]. now rewrite updateViewpoint_returns.
Qed.


Lemma jabs_jneg (x : jsnum) : jabs (jneg x) = jabs x.
Proof.
  destruct x as [| | |q]; trivial. cbn [jabs jneg]. now rewrite Qcabs_opp.
Qed.

Lemma jabs_idempotent (x : jsnum) : jabs (jabs x) = jabs x.
Proof.
  destruct x as [| | |q]; trivial. cbn [jabs].
  now rewrite (Qcabs_pos (Qcabs q) (Qcabs_nonneg q)).
Qed.

Lemma jneg_positive (x : jsnum) : jgt x zero = true -> jgt zero (jneg x) = true.
Proof.
  destruct x as [| | |q]; trivial. unfold jgt, zero, jneg, of_Z.
  destruct (Qccompare q (Q2Qc (inject_Z 0))) eqn:E; try discriminate. intros _.
  apply Qcgt_alt in E.
  assert (L : (- q < Q2Qc (inject_Z 0))%Qc).
  { apply Qclt_minus_iff. now rewrite Qcopp_involutive, Qcplus_0_l. }
  apply Qcgt_alt in L. now rewrite L.
Qed.

(** X15: for every factor [v] other than zero and [NaN], [zoomIn] scales by
    [|v|] and [zoomOut] by the reciprocal of [|v|], whatever the sign of
    [v]: a negated factor gives the same call. *)
Theorem zoomIn_zoomOut_factors (v : jsnum) (a : option bool)
  (d : option jsnum) (s : Scene x3dom) :
  jgt (jabs v) zero = true ->
  scale_args (calls (added s (exec (zoomIn (Some v) a d) s)))
  = [uniform (jabs v)]
  /\ scale_args (calls (added s (exec (zoomOut (Some v) a d) s)))
     = [uniform (jdiv one (jabs v))]
  /\ zoomIn (Some (jneg v)) a d s = zoomIn (Some v) a d s
  /\ zoomOut (Some (jneg v)) a d s = zoomOut (Some v) a d s.
Proof.
  intros H. unfold zoomIn, zoomOut; cbn [default].
  rewrite !zoom_scale_args; cbn [default]. rewrite !jabs_jneg.
  rewrite (zoom_scalar_positive _ H), jmul_minus_one.
  rewrite (zoom_scalar_negative _ (jneg_positive _ H)).
  now rewrite jabs_jneg, jabs_idempotent.
Qed.

(** X16: with the factor zero both [zoomIn] and [zoomOut] scale by
    [Infinity], and with [NaN] both scale by [NaN]; neither throws. *)
Theorem zoomIn_zoomOut_degenerate (a : option bool) (d : option jsnum)
  (s : Scene x3dom) :
  scale_args (calls (added s (exec (zoomIn (Some zero) a d) s)))
  = [uniform PInf]
  /\ scale_args (calls (added s (exec (zoomOut (Some zero) a d) s)))
     = [uniform PInf]
  /\ scale_args (calls (added s (exec (zoomIn (Some NaN) a d) s)))
     = [uniform NaN]
  /\ scale_args (calls (added s (exec (zoomOut (Some NaN) a d) s)))
     = [uniform NaN]
  /\ fst (zoomIn (Some zero) a d s) = Ok tt
  /\ fst (zoomOut (Some zero) a d s) = Ok tt.
Proof.
  unfold zoomIn, zoomOut; cbn [default].
  rewrite !zoom_scale_args, !zoom_returns. now repeat split.
Qed.

Lemma jdiv_jneg_l (x : jsnum) (q : Qc) :
  sgn q = Gt -> jdiv (jneg x) (Fin q) = jneg (jdiv x (Fin q)).
Proof.
  intros Hq. destruct x as [| | |p]; cbn [jneg jdiv]; rewrite ?Hq; cbv iota;
    cbn [jneg]; trivial.
  f_equal. unfold Qcdiv. ring.
Qed.

Lemma jmul_jneg_r (q : Qc) (x : jsnum) :
  sgn q = Gt -> jmul (Fin q) (jneg x) = jneg (jmul (Fin q) x).
Proof.
  intros Hq. destruct x as [| | |p]; cbn [jneg jmul]; unfold inf_times;
    rewrite ?Hq; cbv iota; cbn [jneg]; trivial.
  f_equal. ring.
Qed.

Lemma jmul_jneg_l (x : jsnum) (q : Qc) :
  sgn q = Gt -> jmul (jneg x) (Fin q) = jneg (jmul x (Fin q)).
Proof.
  intros Hq. destruct x as [| | |p]; cbn [jneg jmul]; unfold inf_times;
    rewrite ?Hq; cbv iota; cbn [jneg]; trivial.
  f_equal. ring.
Qed.

(** X17: the angle is not validated: the two conversions commute with
    negation and pass [NaN] and the infinities through, so [rotate] about a
    supported axis hands the builder the negated radians for a negated
    angle, and [NaN] or an infinity for an angle that is one. *)
Theorem angle_conversions_odd (x : jsnum) (a : option bool) (d : option jsnum)
  (s : Scene x3dom) :
  getRadian (jneg x) = jneg (getRadian x)
  /\ getDegree (jneg x) = jneg (getDegree x)
  /\ getRadian NaN = NaN /\ getRadian PInf = PInf /\ getRadian NInf = NInf
  /\ getDegree NaN = NaN /\ getDegree PInf = PInf /\ getDegree NInf = NInf
  /\ nth_error (calls (added s (exec (rotate X_AXIS (jneg x) a d) s))) 2
     = Some (CallRotationX (jneg (getRadian x)))
  /\ nth_error (calls (added s (exec (rotate Y_AXIS (jneg x) a d) s))) 2
     = Some (CallRotationY (jneg (getRadian x))).
Proof.
  assert (R : getRadian (jneg x) = jneg (getRadian x)).
  { unfold getRadian, PI, of_Z.
    now rewrite jmul_jneg_r, jdiv_jneg_l by reflexivity. }
  split; [exact R|]. split.
  { unfold getDegree, PI, of_Z.
    now rewrite jmul_jneg_l, jdiv_jneg_l by reflexivity. }
  do 6 (split; [reflexivity|]).
  split.
  - change (exec (rotate X_AXIS (jneg x) a d) s)
      with (exec (_updateViewpoint
                    (mult x3dom (viewMatrix x3dom (world s))
                       (rotationX x3dom (getRadian (jneg x))))
                    (default true a) (default (of_Z 400) d))
              (record (CallMult (viewMatrix x3dom (world s))
                         (rotationX x3dom (getRadian (jneg x))))
                 (record (CallRotationX (getRadian (jneg x)))
                    (record CallViewMatrix (record CallViewpoint s))))).
    rewrite (proj2 (composed_calls (CallRotationX (getRadian (jneg x))) _ _ _ s)).
    now rewrite R.
  - change (exec (rotate Y_AXIS (jneg x) a d) s)
      with (exec (_updateViewpoint
                    (mult x3dom (viewMatrix x3dom (world s))
                       (rotationY x3dom (getRadian (jneg x))))
                    (default true a) (default (of_Z 400) d))
              (record (CallMult (viewMatrix x3dom (world s))
                         (rotationY x3dom (getRadian (jneg x))))
                 (record (CallRotationY (getRadian (jneg x)))
                    (record CallViewMatrix (record CallViewpoint s))))).
    rewrite (proj2 (composed_calls (CallRotationY (getRadian (jneg x))) _ _ _ s)).
    now rewrite R.
Qed.

End CameraEdges.

(** ** The ledger of timers *)

Section LedgerFacts.

Import Camera Ledger.
Local Open Scope string_scope.

Variable x3dom : X3Dom.

Lemma scheduled_app (l1 l2 : list (Qc * Call x3dom)) :
  scheduled (l1 ++ l2) = (scheduled l1 ++ scheduled l2)%list.
Proof. apply flat_map_app. Qed.

Lemma fired_app (l1 l2 : list (Qc * Call x3dom)) :
  fired (l1 ++ l2) = (fired l1 ++ fired l2)%list.
Proof. apply flat_map_app. Qed.

Lemma ret_tracked (A : Type) (a : A) : tracked_call (ret (S := Scene x3dom) a).
Proof.
  intros s. exists []. cbn. now rewrite !app_nil_r.
Qed.

Lemma throw_tracked (A : Type) (e : JsError) :
  tracked_call (throw (S := Scene x3dom) (A := A) e).
Proof.
  intros s. exists []. cbn. now rewrite !app_nil_r.
Qed.

Lemma bind_tracked (A B : Type) (m : M (Scene x3dom) A)
  (k : A -> M (Scene x3dom) B) :
  tracked_call m -> (forall a, tracked_call (k a)) -> tracked_call (bind m k).
Proof.
  intros Hm Hk s. destruct (Hm s) as (e1 & L1 & F1 & T1 & C1).
  unfold exec, bind in *. destruct (m s) as [[a|e] s1]; cbn [snd] in *.
  - destruct (Hk a s1) as (e2 & L2 & F2 & T2 & C2). unfold exec in *.
    exists (e1 ++ e2)%list.
    rewrite L2, L1, T2, T1, C2, C1, fired_app, scheduled_app, F1, F2.
    now rewrite !app_assoc.
  - now exists e1.
Qed.

Lemma query_tracked (A : Type) (c : Call x3dom) (f : World x3dom -> A) :
  is_plain c = true -> tracked_call (query c f).
Proof.
  intros H s. exists [(clock s, c)].
  unfold fired, scheduled; cbn. destruct c; try discriminate H;
    now rewrite !app_nil_r.
Qed.

Lemma command_tracked (c : Call x3dom) (f : World x3dom -> World x3dom) :
  is_plain c = true -> tracked_call (command c f).
Proof.
  intros H s. exists [(clock s, c)].
  unfold fired, scheduled; cbn. destruct c; try discriminate H;
    now rewrite !app_nil_r.
Qed.

Lemma setTimeout_tracked (tk : Task) (d : jsnum) :
  tracked_call (setTimeout (x3dom := x3dom) tk d).
Proof.
  intros s. eexists. cbn. repeat split; reflexivity.
Qed.

Ltac tracked_step :=
  first
    [ apply bind_tracked; [|intro]
    | apply query_tracked; reflexivity
    | apply command_tracked; reflexivity
    | apply ret_tracked
    | apply throw_tracked
    | apply setTimeout_tracked
    | match goal with
      | |- tracked_call (if ?b then _ else _) => destruct b
      end ].

Lemma updateViewpoint_tracked (m : Matrix x3dom) (animate : bool) (d : jsnum) :
  tracked_call (_updateViewpoint m animate d).
Proof. unfold _updateViewpoint, _getCameraMeta. repeat tracked_step. Qed.

Lemma rotate_tracked (axis : string) (angle : jsnum) (animate : option bool)
  (duration : option jsnum) :
  tracked_call (rotate (x3dom := x3dom) axis angle animate duration).
Proof.
  unfold rotate, _getCameraMeta.
  repeat first [apply updateViewpoint_tracked | tracked_step].
Qed.

Lemma zoom_tracked (zoomValue : option jsnum) (animate : option bool)
  (duration : option jsnum) :
  tracked_call (zoom (x3dom := x3dom) zoomValue animate duration).
Proof.
  unfold zoom, _getCameraMeta.
  repeat first [apply updateViewpoint_tracked | tracked_step].
Qed.

Lemma run_op_tracked (o : Op) : tracked_call (run_op (x3dom := x3dom) o).
Proof.
  destruct o; cbn [run_op];
    unfold resetView, rotateRoundY, rotateX, rotateY, zoomIn, zoomOut;
    repeat first [apply rotate_tracked | apply zoom_tracked | tracked_step].
Qed.

Lemma run_task_tracked (tk : Task) : tracked_call (run_task (x3dom := x3dom) tk).
Proof. destruct tk; apply rotate_tracked. Qed.


End LedgerFacts.

(** ** Runs of the further properties *)

Section FurtherRuns.

Import Camera Shapes ShapeCycles Ledger.
Local Open Scope string_scope.

Lemma hexToRgbLine_first_six_witness :
  hexToRgbLine (fun _ => "?") "FF0000AA" = hexToRgbLine (fun _ => "?") "FF0000".
Proof.
  apply (@hexToRgbLine_first_six (fun _ => "?") "F" "F" "0" "0" "0" "0" "AA");
    reflexivity.
Defined.

Lemma hexChannels_six_digits_witness :
  hexChannels "80ff00"
  = Some [jdiv (of_Z (16 * 8 + 0)) (of_Z 255);
          jdiv (of_Z (16 * 15 + 15)) (of_Z 255);
          jdiv (of_Z (16 * 0 + 0)) (of_Z 255)]
  /\ forallb in_unit_range
       [jdiv (of_Z (16 * 8 + 0)) (of_Z 255);
        jdiv (of_Z (16 * 15 + 15)) (of_Z 255);
        jdiv (of_Z (16 * 0 + 0)) (of_Z 255)] = true.
Proof.
  apply (@hexChannels_six_digits "8" "0" "f" "f" "0" "0" 8 0 15 15 0 0);
    reflexivity.
Defined.

Lemma hexChannels_short_witness :
  hexChannels "FFF" = None
  \/ (exists r g, hexChannels "FFF" = Some [r; g; NaN])
     /\ (String.length "FFF" <= 2 ->
         exists r, hexChannels "FFF" = Some [r; NaN; NaN]).
Proof.
  apply (@hexChannels_short "FFF"). cbn. lia.
Defined.

Lemma hexChannels_bad_lead_witness :
  exists g b, hexChannels "#FF0000" = Some [NaN; g; b].
Proof.
  apply (@hexChannels_bad_lead "#" "FF0000"); reflexivity.
Defined.



Lemma zoomIn_zoomOut_factors_witness :
  scale_args
    (calls (added start (exec (zoomIn (Some (of_Z (-2))) None None) start)))
  = [uniform (jabs (of_Z (-2)))]
  /\ scale_args
       (calls (added start (exec (zoomOut (Some (of_Z (-2))) None None) start)))
     = [uniform (jdiv one (jabs (of_Z (-2))))]
  /\ zoomIn (Some (jneg (of_Z (-2)))) None None start
     = zoomIn (Some (of_Z (-2))) None None start
  /\ zoomOut (Some (jneg (of_Z (-2)))) None None start
     = zoomOut (Some (of_Z (-2))) None None start.
Proof.
  apply (@zoomIn_zoomOut_factors symbolic (of_Z (-2)) None None start).
  reflexivity.
Defined.


End FurtherRuns.
